(** * TeachingDemoCPP, demo/stack01/lfstack.cc

    A shallow embedding of the three fixed-capacity stacks of
    [lfstack.cc] -- [stack] (single threaded), [lstack] (the same behind a
    mutex) and [lfstack] (one atomic control word driven by
    compare-and-swap loops) -- and the properties of them that the
    specification states.

    Conventions.
    - [uint32_t] is a [Z] in [0, 2^32); every arithmetic result is reduced
      with [wrap32], bit operations are [Z.land], [Z.lor], [Z.shiftr].
    - [size_t] arguments are [nat]: a [size_t] is wider than 32 bits on the
      usual 64-bit targets, and the code narrows it where it assigns it to
      a [uint32_t].
    - [std::vector<T>] is a [list T]; [_contents], the raw pointer to its
      first element, is a two-valued [pointer].
    - A call either returns, trips an [assert], or has undefined behaviour
      (an access outside the vector or through a null pointer, the end of
      a value-returning function reached without [return]): the
      [outcome] monad. *)

From stdpp Require Import base numbers list strings.

Local Open Scope Z_scope.

(** ** Machine integers *)

Definition wrap32 (z : Z) : Z := z mod 2 ^ 32.

Definition is_u32 (z : Z) : Prop := 0 ≤ z < 2 ^ 32.

(** ** Results of a call *)

Inductive outcome (A : Type) : Type :=
| Done (a : A)
| AssertFailed
| Undefined.
Arguments Done {A} a.
Arguments AssertFailed {A}.
Arguments Undefined {A}.

#[global] Instance outcome_ret : MRet outcome := @Done.
#[global] Instance outcome_bind : MBind outcome := λ A B f m,
  match m with
  | Done a => f a
  | AssertFailed => AssertFailed
  | Undefined => Undefined
  end.
#[global] Instance outcome_fmap : FMap outcome := λ A B f m,
  match m with
  | Done a => Done (f a)
  | AssertFailed => AssertFailed
  | Undefined => Undefined
  end.

(** [assert(b)] of <cassert>. *)
Definition assert (b : bool) : outcome unit :=
  if b then Done tt else AssertFailed.

(** ** Element type

    The template parameter [T] is value-initialised by [vector::resize]
    and copied by assignment; [int] is the instance [main] uses. *)

Class ValueInit (T : Type) := value_init : T.

#[global] Instance int_value_init : ValueInit Z := 0.

(** ** The vector and the raw pointer into it *)

Inductive pointer : Set :=
| nullptr
| first_element.

Definition is_nullptr (p : pointer) : bool :=
  match p with nullptr => true | first_element => false end.

Section Vector.
Context {T : Type} `{ValueInit T}.

(** [contents.resize(n)]: keep the first [n] elements, value-initialise
    the new ones. *)
Definition vector_resize (n : nat) (c : list T) : list T :=
  take n c ++ replicate (n - length c) value_init.

(** [&contents[0]] after [contents.resize(n)]: the address of the first
    element.  A vector resized to no elements keeps the buffer it has, and
    the address is that of the buffer: null when the vector never had one.
    [p] is [_contents] before the resize, which is non-null exactly when
    an earlier resize gave the vector a buffer. *)
Definition address_of_first (p : pointer) (c : list T) : pointer :=
  match c with
  | [] => p
  | _ :: _ => first_element
  end.

(** [p[i] = t] for [p] pointing at the first element of [c]. *)
Definition store (p : pointer) (c : list T) (i : Z) (t : T)
  : outcome (list T) :=
  match p with
  | nullptr => Undefined
  | first_element =>
      match c !! Z.to_nat i with
      | Some _ => Done (<[Z.to_nat i := t]> c)
      | None => Undefined
      end
  end.

(** [p[i]] read. *)
Definition fetch (p : pointer) (c : list T) (i : Z) : outcome T :=
  match p with
  | nullptr => Undefined
  | first_element =>
      match c !! Z.to_nat i with
      | Some v => Done v
      | None => Undefined
      end
  end.
End Vector.

(** ** Non-thread-safe stack ([class stack]) *)

Module Stack.
Section stack.
Context {T : Type} `{ValueInit T}.

Record stack : Type := Build {
  contents : list T;
  _contents : pointer;
  index : Z;
  size : Z
}.

(** [stack() = default] with the member initialisers. *)
Definition new : stack :=
  {| contents := []; _contents := nullptr; index := 0; size := 0 |}.

Definition resize (n : nat) (s : stack) : stack :=
  let c := vector_resize n (contents s) in
  {| contents := c;
     _contents := address_of_first (_contents s) c;
     index := index s;
     size := size s |}.

(** The condition of [assert(index < size-1)], in [uint32_t]. *)
Definition push_guard (s : stack) : bool := index s <? wrap32 (size s - 1).

Definition push (t : T) (s : stack) : outcome stack :=
  assert (negb (is_nullptr (_contents s)));;
  assert (push_guard s);;
  c ← store (_contents s) (contents s) (index s) t;
  mret {| contents := c;
          _contents := _contents s;
          index := wrap32 (index s + 1);
          size := size s |}.

(** [try_pop(t)]: the result carries the returned flag, the value of the
    reference parameter [t] after the call, and the stack. *)
Definition try_pop (t : T) (s : stack) : outcome (bool * T * stack) :=
  if index s =? 0 then mret (false, t, s)
  else
    assert (0 <? index s);;
    let i := wrap32 (index s - 1) in
    v ← fetch (_contents s) (contents s) i;
    mret (true, v, {| contents := contents s;
                      _contents := _contents s;
                      index := i;
                      size := size s |}).
End stack.
Arguments stack T : clear implicits.
End Stack.

(** ** Lock-based thread-safe stack ([class lstack]) *)

Module LStack.
Section lstack.
Context {T : Type} `{ValueInit T}.

(** [mx] is [true] while some thread owns the mutex. *)
Record lstack : Type := Build {
  wrapped : Stack.stack T;
  mx : bool
}.

Definition new : lstack := {| wrapped := Stack.new; mx := false |}.

Definition nonconcurrent_resize (n : nat) (s : lstack) : lstack :=
  {| wrapped := Stack.resize n (wrapped s); mx := mx s |}.

(** [std::lock_guard<std::mutex> lck(mx)]: the constructor locks.  The
    caller is the only thread of the run, so a mutex that is already
    owned is owned by the caller, and locking it again is undefined. *)
Definition lock_guard (s : lstack) : outcome lstack :=
  if mx s then Undefined else mret {| wrapped := wrapped s; mx := true |}.

(** The destructor of the guard, run on every return path. *)
Definition unlock (s : lstack) : lstack :=
  {| wrapped := wrapped s; mx := false |}.

Definition push (t : T) (s : lstack) : outcome lstack :=
  s1 ← lock_guard s;
  w ← Stack.push t (wrapped s1);
  mret (unlock {| wrapped := w; mx := mx s1 |}).

Definition try_pop (t : T) (s : lstack) : outcome (bool * T * lstack) :=
  s1 ← lock_guard s;
  r ← Stack.try_pop t (wrapped s1);
  mret (r.1.1, r.1.2, unlock {| wrapped := r.2; mx := mx s1 |}).
End lstack.
Arguments lstack T : clear implicits.
End LStack.

(** ** Lock-free stack ([class lfstack]) *)

Module LFStack.
Section lfstack.
Context {T : Type} `{ValueInit T}.

(** [index] is the [std::atomic<uint32_t>] control word: the element
    count shifted left by one, plus the write flag in bit 0. *)
Record lfstack : Type := Build {
  contents : list T;
  _contents : pointer;
  index : Z;
  size : Z
}.

Definition clean_index (i : Z) : Z := Z.land i 0xfffffffe.

Definition flag_index (i : Z) : Z := Z.lor i 0x01.

Definition read_index (i : Z) : Z := Z.shiftr i 1.

Definition decrement_index (i : Z) : outcome Z :=
  assert (0 <? i);;
  mret (wrap32 (i - 2)).

Definition is_zero (i : Z) : bool := i <? 2.

Definition increment_index (i : Z) : Z := wrap32 (i + 2).

(** [lfstack() = default]: the atomic is default-constructed and holds
    whatever [indeterminate] value it happens to hold until
    [nonconcurrent_resize] stores 0. *)
Definition new (indeterminate : Z) : lfstack :=
  {| contents := []; _contents := nullptr;
     index := indeterminate; size := 0 |}.

(** [size = n] narrows the [size_t] to [uint32_t]. *)
Definition nonconcurrent_resize (n : nat) (s : lfstack) : lfstack :=
  let c := vector_resize n (contents s) in
  {| contents := c;
     _contents := address_of_first (_contents s) c;
     index := 0;
     size := wrap32 (Z.of_nat n) |}.

(** *** The atomic operations on [index] (sequentially consistent) *)

Definition load (s : lfstack) : Z := index s.

Definition set_index (s : lfstack) (i : Z) : lfstack :=
  {| contents := contents s; _contents := _contents s;
     index := i; size := size s |}.

(** [std::atomic_compare_exchange_strong(&index, &expected, desired)]:
    the new state, the value left in [expected], and the result. *)
Definition compare_exchange_strong (s : lfstack) (expected desired : Z)
  : lfstack * Z * bool :=
  if index s =? expected then (set_index s desired, expected, true)
  else (s, index s, false).

(** *** Program points

    One constructor for each place of [push] and [try_pop] where a
    thread can stand between two accesses to the shared object, with the
    locals that are live there.  The parameter [t] is the argument of
    [push], [dest] the current value of the reference argument of
    [try_pop], [index_copy] the local of that name. *)
Inductive point : Type :=
| Idle                               (* outside of any operation *)
| PushEntry (t : T)                  (* l.169 *)
| AcquireLoad (t : T)                (* l.144 *)
| AcquireCas (t : T) (index_copy : Z) (* l.145-147 *)
| PublishLoad (t : T)                (* l.175 *)
| PublishWrite (t : T) (index_copy : Z) (* l.176-177 *)
| PublishCas (t : T) (index_copy : Z) (* l.179-181 *)
| PushReturn                         (* l.182 *)
| PopEntry (dest : T)                (* l.185 *)
| PopLoad (dest : T)                 (* l.188 *)
| PopRead (dest : T) (index_copy : Z) (* l.189-190 *)
| PopCas (dest : T) (index_copy : Z) (* l.191-192 *)
| PopReturn (result : bool) (dest : T). (* l.189, l.193 *)

Definition returned (k : point) : bool :=
  match k with
  | Idle | PushReturn | PopReturn _ _ => true
  | _ => false
  end.

(** One step of a thread standing at [k], in a build where the call of
    [acquire_write_rights] comes back.  That function is declared to
    return a [uint32_t] and has no [return] statement; its only caller
    discards the result, and a build without optimisation continues in
    [push] after the loop.  This is the step the interleavings below are
    made of; what the C++ standard gives at that place is
    [conforming_step], further down. *)
Definition step (s : lfstack) (k : point) : outcome (lfstack * point) :=
  match k with
  | Idle | PushReturn | PopReturn _ _ => mret (s, k)
  | PushEntry t =>
      assert (negb (is_nullptr (_contents s)));;
      mret (s, AcquireLoad t)
  | AcquireLoad t =>
      let index_copy := load s in
      mret (s, AcquireCas t index_copy)
  | AcquireCas t index_copy =>
      let '(s', _, ok) :=
        compare_exchange_strong s index_copy (flag_index index_copy) in
      mret (s', if ok then PublishLoad t else AcquireLoad t)
  | PublishLoad t =>
      let index_copy := load s in
      mret (s, PublishWrite t index_copy)
  | PublishWrite t index_copy =>
      assert (read_index index_copy <? wrap32 (size s - 1));;
      c ← store (_contents s) (contents s)
            (read_index (clean_index index_copy)) t;
      mret ({| contents := c; _contents := _contents s;
               index := index s; size := size s |},
            PublishCas t index_copy)
  | PublishCas t index_copy =>
      let '(s', _, ok) :=
        compare_exchange_strong s index_copy
          (increment_index (clean_index index_copy)) in
      mret (s', if ok then PushReturn else PublishLoad t)
  | PopEntry dest =>
      assert (negb (is_nullptr (_contents s)));;
      mret (s, PopLoad dest)
  | PopLoad dest =>
      let index_copy := clean_index (load s) in
      mret (s, PopRead dest index_copy)
  | PopRead dest index_copy =>
      if is_zero index_copy then mret (s, PopReturn false dest)
      else
        i ← decrement_index index_copy;
        v ← fetch (_contents s) (contents s) (read_index i);
        mret (s, PopCas v index_copy)
  | PopCas dest index_copy =>
      desired ← decrement_index index_copy;
      let '(s', _, ok) := compare_exchange_strong s index_copy desired in
      mret (s', if ok then PopReturn true dest else PopLoad dest)
  end.

(** *** A call run to completion by a thread that is alone

    [fuel] bounds the number of steps; [None] means the call has not
    returned within it. *)
Fixpoint run (fuel : nat) (s : lfstack) (k : point)
  : option (outcome (lfstack * point)) :=
  if returned k then Some (Done (s, k))
  else
    match fuel with
    | O => None
    | S fuel' =>
        match step s k with
        | Done (s', k') => run fuel' s' k'
        | AssertFailed => Some AssertFailed
        | Undefined => Some Undefined
        end
    end.

Definition push (fuel : nat) (t : T) (s : lfstack)
  : option (outcome lfstack) :=
  match run fuel s (PushEntry t) with
  | Some r => Some (fst <$> r)
  | None => None
  end.

(** The flag returned, the reference argument after the call, the
    stack.  A run that starts at [PopEntry] stops at a [PopReturn]. *)
Definition try_pop (fuel : nat) (dest : T) (s : lfstack)
  : option (outcome (bool * T * lfstack)) :=
  match run fuel s (PopEntry dest) with
  | Some r =>
      Some (r ≫= λ '(s', k),
              match k with
              | PopReturn b d => Done (b, d, s')
              | _ => Undefined
              end)
  | None => None
  end.

(** *** What the C++ standard gives

    Flowing off the end of [acquire_write_rights], a function declared to
    return a value, is undefined behaviour, and a build with optimisation
    does not come back from the call.  [conforming_step] is [step] except
    that leaving the loop of [acquire_write_rights] is [Undefined]. *)
Definition conforming_step (s : lfstack) (k : point)
  : outcome (lfstack * point) :=
  match k with
  | AcquireCas t index_copy =>
      let '(s', _, ok) :=
        compare_exchange_strong s index_copy (flag_index index_copy) in
      if ok then Undefined else mret (s', AcquireLoad t)
  | _ => step s k
  end.

Fixpoint conforming_run (fuel : nat) (s : lfstack) (k : point)
  : option (outcome (lfstack * point)) :=
  if returned k then Some (Done (s, k))
  else
    match fuel with
    | O => None
    | S fuel' =>
        match conforming_step s k with
        | Done (s', k') => conforming_run fuel' s' k'
        | AssertFailed => Some AssertFailed
        | Undefined => Some Undefined
        end
    end.

Definition conforming_push (fuel : nat) (t : T) (s : lfstack)
  : option (outcome lfstack) :=
  match conforming_run fuel s (PushEntry t) with
  | Some r => Some (fst <$> r)
  | None => None
  end.

(** *** Several threads on one stack

    A thread is the point it stands at.  An [event] lets one thread take
    its next step, or lets a thread that is outside of any operation
    call one. *)
Inductive call : Type :=
| CallPush (t : T)
| CallTryPop (dest : T).

Definition entry (c : call) : point :=
  match c with
  | CallPush t => PushEntry t
  | CallTryPop dest => PopEntry dest
  end.

Inductive event : Type :=
| Step (tid : nat)
| Call (tid : nat) (c : call).

Record system : Type := System {
  shared : lfstack;
  threads : list point
}.

Definition fire (e : event) (σ : system) : outcome system :=
  match e with
  | Step tid =>
      match threads σ !! tid with
      | Some k =>
          r ← step (shared σ) k;
          mret {| shared := r.1; threads := <[tid := r.2]> (threads σ) |}
      | None => mret σ
      end
  | Call tid c =>
      match threads σ !! tid with
      | Some k =>
          if returned k
          then mret {| shared := shared σ;
                       threads := <[tid := entry c]> (threads σ) |}
          else mret σ
      | None => mret σ
      end
  end.

Fixpoint play (es : list event) (σ : system) : outcome system :=
  match es with
  | [] => mret σ
  | e :: es' => σ' ← fire e σ; play es' σ'
  end.

(** [nthreads] idle threads around a stack just set up. *)
Definition boot (indeterminate : Z) (n nthreads : nat) : system :=
  {| shared := nonconcurrent_resize n (new indeterminate);
     threads := replicate nthreads Idle |}.
End lfstack.
Arguments lfstack T : clear implicits.
Arguments point T : clear implicits.
Arguments call T : clear implicits.
Arguments event T : clear implicits.
Arguments system T : clear implicits.
End LFStack.

(** ** The common interface and single-threaded use

    The three classes offer the same [push] and [try_pop].  A call need
    not return ([None]: it is still retrying when the fuel is spent), which
    only the lock-free stack can do. *)

Class StackOps (T S : Type) := {
  ops_push : T → S → option (outcome S);
  ops_try_pop : T → S → option (outcome (bool * T * S))
}.

#[global] Instance stack_ops {T} : StackOps T (Stack.stack T) := {|
  ops_push t s := Some (Stack.push t s);
  ops_try_pop t s := Some (Stack.try_pop t s)
|}.

#[global] Instance lstack_ops {T} : StackOps T (LStack.lstack T) := {|
  ops_push t s := Some (LStack.push t s);
  ops_try_pop t s := Some (LStack.try_pop t s)
|}.

(** Steps a lock-free call takes when no other thread interferes: the six
    points of [push] from its entry to its return. *)
Definition alone : nat := 6.

#[global] Instance lfstack_ops {T} `{ValueInit T}
  : StackOps T (LFStack.lfstack T) := {|
  ops_push t s := LFStack.push alone t s;
  ops_try_pop t s := LFStack.try_pop alone t s
|}.

(** The lock-free stack as the C++ standard has it: [push] with
    [conforming_step]; [try_pop] does not call [acquire_write_rights] and
    is the same. *)
Definition conforming_lfstack_ops {T} `{ValueInit T}
  : StackOps T (LFStack.lfstack T) := {|
  ops_push t s := LFStack.conforming_push alone t s;
  ops_try_pop t s := LFStack.try_pop alone t s
|}.

Inductive op (T : Type) : Type :=
| Push (t : T)
| TryPop.
Arguments Push {T} t.
Arguments TryPop {T}.

(** What a caller in the style of [main] sees: it keeps one variable [r],
    passes it to every [try_pop], and looks at the flag and at [r] after
    each of these calls. *)
Section Use.
Context {T S : Type} `{StackOps T S}.

Fixpoint run_ops (ops : list (op T)) (r : T) (s : S)
  : option (outcome (list (bool * T) * T * S)) :=
  match ops with
  | [] => Some (Done ([], r, s))
  | Push t :: ops' =>
      match ops_push t s with
      | Some (Done s') => run_ops ops' r s'
      | Some AssertFailed => Some AssertFailed
      | Some Undefined => Some Undefined
      | None => None
      end
  | TryPop :: ops' =>
      match ops_try_pop r s with
      | Some (Done (b, r', s')) =>
          match run_ops ops' r' s' with
          | Some (Done (obs, r'', s'')) =>
              Some (Done ((b, r') :: obs, r'', s''))
          | other => other
          end
      | Some AssertFailed => Some AssertFailed
      | Some Undefined => Some Undefined
      | None => None
      end
  end.

(** The same without the final stack: what can be compared between
    classes. *)
Definition observe (ops : list (op T)) (r : T) (s : S)
  : option (outcome (list (bool * T) * T)) :=
  match run_ops ops r s with
  | Some (Done (obs, r', _)) => Some (Done (obs, r'))
  | Some AssertFailed => Some AssertFailed
  | Some Undefined => Some Undefined
  | None => None
  end.
End Use.

(** The logical content of a stack, bottom first. *)
Definition stack_elements {T} (s : Stack.stack T) : list T :=
  take (Z.to_nat (Stack.index s)) (Stack.contents s).

Definition lfstack_elements {T} (s : LFStack.lfstack T) : list T :=
  take (Z.to_nat (LFStack.read_index (LFStack.index s)))
       (LFStack.contents s).

(** ** Invariants of the lock-free stack

    What holds of the locals at each program point, and of the control
    word, in every state that threads can reach. *)

Section Invariants.
Context {T : Type} `{ValueInit T}.
Import LFStack.

Definition point_ok (sz : Z) (k : point T) : Prop :=
  match k with
  | AcquireCas _ index_copy | PublishWrite _ index_copy =>
      is_u32 index_copy
  | PublishCas _ index_copy =>
      is_u32 index_copy ∧ read_index index_copy < wrap32 (sz - 1)
  | PopRead _ index_copy =>
      is_u32 index_copy ∧ Z.even index_copy = true
  | PopCas _ index_copy =>
      is_u32 index_copy ∧ Z.even index_copy = true ∧ 2 ≤ index_copy
  | _ => True
  end.

(** The count field does not exceed [size - 1], the subtraction being
    the [uint32_t] one of the code. *)
Definition bounded (s : lfstack T) : Prop :=
  read_index (index s) ≤ wrap32 (size s - 1).

Definition lfstack_ok (s : lfstack T) : Prop :=
  is_u32 (index s) ∧ bounded s.

Definition system_ok (n : nat) (σ : system T) : Prop :=
  lfstack_ok (shared σ)
  ∧ size (shared σ) = wrap32 (Z.of_nat n)
  ∧ Forall (point_ok (size (shared σ))) (threads σ).
End Invariants.

(** ** The guarded stack seen from outside

    The guarded stack that wraps [s], its mutex free: how a guarded stack
    stands between two calls. *)
Definition guarded {T} (s : Stack.stack T) : LStack.lstack T :=
  {| LStack.wrapped := s; LStack.mx := false |}.

(** ** Invariants of single-threaded use

    A stack of capacity [cap] between two calls of its only user. *)

Definition plain_ok {T} (cap : nat) (s : Stack.stack T) : Prop :=
  Stack._contents s = first_element
  ∧ Stack.size s = 0
  ∧ length (Stack.contents s) = cap
  ∧ 0 ≤ Stack.index s ≤ Z.of_nat cap
  ∧ Stack.index s < 2 ^ 32.

(** How many elements the plain stack of capacity [cap] takes before a
    [push] trips the assertion or leaves the vector. *)
Definition plain_room (cap : nat) : Z := Z.min (Z.of_nat cap) (2 ^ 32 - 1).

Definition guarded_ok {T} (cap : nat) (s : LStack.lstack T) : Prop :=
  LStack.mx s = false ∧ plain_ok cap (LStack.wrapped s).

Definition lockfree_ok {T} (cap : nat) (s : LFStack.lfstack T) : Prop :=
  LFStack._contents s = first_element
  ∧ LFStack.size s = wrap32 (Z.of_nat cap)
  ∧ length (LFStack.contents s) = cap
  ∧ is_u32 (LFStack.index s)
  ∧ Z.even (LFStack.index s) = true
  ∧ LFStack.read_index (LFStack.index s) ≤ Z.of_nat cap.

Definition lockfree_room (cap : nat) : Z :=
  Z.min (wrap32 (wrap32 (Z.of_nat cap) - 1))
        (Z.min (Z.of_nat cap) (2 ^ 31 - 1)).

(** ** A list as reference stack

    What a sequence of calls does to a stack that is simply the list [l]
    of its elements, top first: the flags and values its caller sees, the
    caller's variable [r] at the end, and the list at the end. *)

Section Reference.
Context {T : Type}.

Fixpoint list_run (ops : list (op T)) (r : T) (l : list T)
  : list (bool * T) * T * list T :=
  match ops with
  | [] => ([], r, l)
  | Push t :: ops' => list_run ops' r (t :: l)
  | TryPop :: ops' =>
      match l with
      | [] =>
          let '(seen, r', l') := list_run ops' r [] in
          ((false, r) :: seen, r', l')
      | v :: l0 =>
          let '(seen, r', l') := list_run ops' v l0 in
          ((true, v) :: seen, r', l')
      end
  end.

(** No [push] of [ops] finds [room] or more elements on a stack that
    holds [depth] of them at the start. *)
Fixpoint fits (room : Z) (ops : list (op T)) (depth : Z) : bool :=
  match ops with
  | [] => true
  | Push _ :: ops' => (depth <? room) && fits room ops' (depth + 1)
  | TryPop :: ops' => fits room ops' (Z.max 0 (depth - 1))
  end.
End Reference.

(** ** More invariants of the lock-free stack *)

Section MoreInvariants.
Context {T : Type} `{ValueInit T}.
Import LFStack.

(** The points between the exchange that sets the write flag and the
    exchange that publishes. *)
Definition publishing (k : point T) : bool :=
  match k with
  | PublishLoad _ | PublishWrite _ _ | PublishCas _ _ => true
  | _ => false
  end.

(** The points of [try_pop]. *)
Definition popping (k : point T) : bool :=
  match k with
  | PopEntry _ | PopLoad _ | PopRead _ _ | PopCas _ _ => true
  | _ => false
  end.

(** The points a thread can stand at without having passed
    [assert(_contents != nullptr)]. *)
Definition before_entry (k : point T) : bool :=
  match k with
  | Idle | PushEntry _ | PopEntry _ | PushReturn | PopReturn _ _ => true
  | _ => false
  end.

(** The word a thread in [try_pop] works on was within the bound when it
    was loaded. *)
Definition pop_copy_ok (sz : Z) (k : point T) : Prop :=
  match k with
  | PopRead _ index_copy | PopCas _ index_copy =>
      read_index index_copy ≤ wrap32 (sz - 1)
  | _ => True
  end.

Definition storage_ok (n : nat) (σ : system T) : Prop :=
  length (contents (shared σ)) = n
  ∧ _contents (shared σ)
    = address_of_first nullptr (vector_resize n ([] : list T))
  ∧ (_contents (shared σ) = first_element
     ∨ Forall (λ k, before_entry k = true) (threads σ))
  ∧ Forall (pop_copy_ok (size (shared σ))) (threads σ).

Definition flag_owned (σ : system T) : Prop :=
  Z.odd (index (shared σ)) = true →
  Exists (λ k, publishing k = true) (threads σ).
End MoreInvariants.

(** ** [main] *)

(** One call of [main] on a stack, then the rest [k] of [main]; a failed
    assertion or an undefined access ends it. *)
Definition then_call {A B} (m : option (outcome A))
    (k : A → option (outcome B)) : option (outcome B) :=
  match m with
  | Some (Done a) => k a
  | Some AssertFailed => Some AssertFailed
  | Some Undefined => Some Undefined
  | None => None
  end.

(** [assert(st.try_pop(r)); assert(r == expected);] *)
Definition expect_pop {S} `{StackOps Z S} (expected : Z) (rs : Z * S)
  : option (outcome (Z * S)) :=
  then_call (ops_try_pop rs.1 rs.2) (λ res,
    then_call (Some (assert res.1.1)) (λ _,
      then_call (Some (assert (res.1.2 =? expected))) (λ _,
        Some (Done (res.1.2, res.2))))).

(** The body of each of the three blocks of [main], after the stack was
    resized: three pushes, [int r = -1], three checked pops, one line of
    output. *)
Definition base_test {S} `{StackOps Z S} (st : S) (line : string)
  : option (outcome (list string)) :=
  then_call (ops_push 1 st) (λ st,
  then_call (ops_push 2 st) (λ st,
  then_call (ops_push 3 st) (λ st,
  let r := -1 in
  then_call (expect_pop 3 (r, st)) (λ rs,
  then_call (expect_pop 2 rs) (λ rs,
  then_call (expect_pop 1 rs) (λ _,
  Some (Done [line]))))))).

(** One block of [main], then the rest [k] of [main].  A block writes its
    line at its end, so a block that does not reach its end writes
    nothing and [main] stops there. *)
Definition then_block (m : option (outcome (list string)))
    (k : list string → list string * option (outcome unit))
  : list string * option (outcome unit) :=
  match m with
  | Some (Done out) => let '(rest, e) := k out in (out ++ rest, e)
  | Some AssertFailed => ([], Some AssertFailed)
  | Some Undefined => ([], Some Undefined)
  | None => ([], None)
  end.

(** [main]: the lines written to [std::cout] and how the run ends.
    [indeterminate] is what the atomic of the lock-free stack holds when
    it is constructed.  The lock-free block runs [push] as the C++
    standard has it. *)
Definition main (indeterminate : Z) : list string * option (outcome unit) :=
  then_block (base_test (Stack.resize 100 Stack.new) "stack ok") (λ _,
  then_block (base_test (LStack.nonconcurrent_resize 100 LStack.new)
                "lstack ok") (λ _,
  then_block (base_test (H:=conforming_lfstack_ops)
                (LFStack.nonconcurrent_resize 100
                   (LFStack.new indeterminate)) "lfstack ok") (λ _,
  ([], Some (Done tt))))).

(** * Properties *)

(** ** The vector *)

Lemma length_vector_resize {T} `{ValueInit T} (n : nat) (c : list T) :
  length (vector_resize n c) = n.
Proof.
  unfold vector_resize. rewrite length_app, length_take, length_replicate.
  lia.
Qed.

Lemma vector_resize_nil {T} `{ValueInit T} (n : nat) :
  vector_resize n ([] : list T) = replicate n value_init.
Proof. unfold vector_resize. rewrite take_nil. simpl. f_equal. lia. Qed.

(** ** Arithmetic of the control word *)

Lemma land_double (a b : Z) : Z.land a (2 * b) = 2 * Z.land (a / 2) b.
Proof.
  apply Z.bits_inj'. intros n Hn.
  rewrite Z.land_spec.
  destruct (decide (n = 0)) as [->|Hne].
  - rewrite !Z.testbit_even_0. by rewrite andb_false_r.
  - replace n with (Z.succ (n - 1)) by lia.
    rewrite !Z.testbit_even_succ by lia.
    rewrite Z.land_spec. f_equal.
    rewrite <- Z.div2_div, Z.div2_spec, Z.shiftr_spec by lia. f_equal.
Qed.

Lemma clean_index_spec (i : Z) :
  is_u32 i → LFStack.clean_index i = 2 * (i / 2).
Proof.
  intros [Hlo Hhi]. unfold LFStack.clean_index.
  change 0xfffffffe with (2 * Z.ones 31).
  rewrite land_double, Z.land_ones by lia.
  rewrite Z.mod_small; [done|].
  split; [apply Z.div_pos; lia|apply Z.div_lt_upper_bound; lia].
Qed.

Lemma read_index_spec (i : Z) : LFStack.read_index i = i / 2.
Proof. unfold LFStack.read_index. by rewrite Z.shiftr_div_pow2. Qed.

Lemma flag_index_spec (i : Z) :
  0 ≤ i → LFStack.flag_index i = 2 * (i / 2) + 1.
Proof.
  intros Hi. unfold LFStack.flag_index.
  change 0x01 with 1.
  pose proof (Z.add_lor_land i 1) as E.
  assert (Z.land i 1 = i mod 2) as E1 by apply (Z.land_ones i 1 ltac:(lia)).
  pose proof (Z.div_mod i 2). pose proof (Z.mod_pos_bound i 2). lia.
Qed.

Lemma flag_bit_spec (i : Z) : Z.land i 1 = i mod 2.
Proof. apply (Z.land_ones i 1). lia. Qed.

Lemma even_mod2 (i : Z) : Z.even i = true ↔ i mod 2 = 0.
Proof. rewrite Zeven_mod. apply Z.eqb_eq. Qed.

(** Brings a goal about control words to linear arithmetic. *)
Ltac word_arith :=
  unfold is_u32, LFStack.increment_index, LFStack.is_zero in *;
  unfold wrap32 in *;
  rewrite ?read_index_spec, ?even_mod2 in *;
  repeat match goal with
  | H : (_ <? _) = true |- _ => apply Z.ltb_lt in H
  | H : (_ <? _) = false |- _ => apply Z.ltb_ge in H
  | H : (_ =? _) = true |- _ => apply Z.eqb_eq in H
  | H : (_ =? _) = false |- _ => apply Z.eqb_neq in H
  end;
  change (2 ^ 32) with 4294967296 in *;
  change (2 ^ 31) with 2147483648 in *;
  Z.div_mod_to_equations; lia.

Lemma clean_index_facts (i : Z) :
  is_u32 i →
  is_u32 (LFStack.clean_index i)
  ∧ Z.even (LFStack.clean_index i) = true
  ∧ LFStack.read_index (LFStack.clean_index i) = LFStack.read_index i
  ∧ LFStack.clean_index i ≤ i.
Proof.
  intros Hi. rewrite clean_index_spec by done. word_arith.
Qed.

Lemma flag_index_facts (i : Z) :
  is_u32 i →
  is_u32 (LFStack.flag_index i)
  ∧ LFStack.read_index (LFStack.flag_index i) = LFStack.read_index i
  ∧ Z.land (LFStack.flag_index i) 1 = 1.
Proof.
  intros Hi. rewrite flag_bit_spec, flag_index_spec by apply Hi. word_arith.
Qed.

Lemma decrement_index_ge2 (i : Z) :
  is_u32 i → 2 ≤ i → LFStack.decrement_index i = Done (i - 2).
Proof.
  intros Hi H2. unfold LFStack.decrement_index.
  replace (0 <? i) with true by (symmetry; apply Z.ltb_lt; lia).
  simpl. f_equal. word_arith.
Qed.

(** ** The lock-free stack, step by step *)

Section LockFreeSteps.
Context {T : Type} `{ValueInit T}.
Import LFStack.

Lemma cas_success (s : lfstack T) (expected desired : Z) :
  index s = expected →
  compare_exchange_strong s expected desired
  = (set_index s desired, expected, true).
Proof.
  intros E. unfold compare_exchange_strong.
  by rewrite (proj2 (Z.eqb_eq _ _) E).
Qed.

Lemma cas_failure (s : lfstack T) (expected desired : Z) :
  index s ≠ expected →
  compare_exchange_strong s expected desired = (s, index s, false).
Proof.
  intros E. unfold compare_exchange_strong.
  by rewrite (proj2 (Z.eqb_neq _ _) E).
Qed.

(** No step changes the capacity, the pointer or the length of the
    vector. *)
Lemma step_frame (s s' : lfstack T) (k k' : point T) :
  step s k = Done (s', k') →
  size s' = size s ∧ _contents s' = _contents s
  ∧ length (contents s') = length (contents s).
Proof.
  destruct k; simpl; unfold compare_exchange_strong;
    repeat match goal with
    | |- context [assert ?b] => destruct b; simpl
    | |- context [is_zero ?i] => destruct (is_zero i); simpl
    | |- context [decrement_index ?i] =>
        unfold decrement_index; simpl
    | |- context [?a =? ?b] => destruct (a =? b); simpl
    | |- context [store ?p ?c ?i ?t] =>
        unfold store; destruct p eqn:?; simpl
    | |- context [fetch ?p ?c ?i] =>
        unfold fetch; destruct p eqn:?; simpl
    | |- context [(contents s) !! ?i] =>
        destruct (contents s !! i); simpl
    end;
    intros E; try discriminate; injection E as <- <-; simpl;
    rewrite ?length_insert; repeat split; congruence.
Qed.

Lemma step_ok (s s' : lfstack T) (k k' : point T) :
  lfstack_ok s → point_ok (size s) k →
  step s k = Done (s', k') →
  lfstack_ok s' ∧ point_ok (size s) k'.
Proof.
  unfold lfstack_ok, bounded. intros [Hu Hb] Hk.
  destruct k; simpl in *.
  - intros [= <- <-]. done.
  - destruct (assert _); simpl; [|done..]. intros [= <- <-]. done.
  - intros [= <- <-]. done.
  - destruct (decide (index s = index_copy)) as [E|E].
    + rewrite cas_success by done. intros [= <- <-]. simpl.
      destruct (flag_index_facts index_copy Hk) as (?&?&?).
      subst index_copy. split; [split; [done|]|done].
      word_arith.
    + rewrite cas_failure by done. intros [= <- <-]. done.
  - intros [= <- <-]. done.
  - destruct (read_index index_copy <? wrap32 (size s - 1)) eqn:Ha;
      simpl; [|done].
    destruct (store _ _ _ _); simpl; [|done..].
    intros [= <- <-]. simpl. split; [done|]. split; [done|].
    by apply Z.ltb_lt.
  - destruct Hk as [Hic Hlt].
    destruct (decide (index s = index_copy)) as [E|E].
    + rewrite cas_success by done. intros [= <- <-]. simpl.
      split; [|done].
      rewrite clean_index_spec by done.
      split; word_arith.
    + rewrite cas_failure by done. intros [= <- <-]. done.
  - intros [= <- <-]. done.
  - destruct (assert _); simpl; [|done..]. intros [= <- <-]. done.
  - intros [= <- <-]. simpl. split; [done|].
    destruct (clean_index_facts (index s) Hu) as (?&?&?). done.
  - destruct (is_zero index_copy) eqn:Hz.
    + intros [= <- <-]. done.
    + destruct Hk as [Hic Hev].
      assert (2 ≤ index_copy) by word_arith.
      rewrite decrement_index_ge2 by done. simpl.
      destruct (fetch _ _ _); simpl; [|done..].
      intros [= <- <-]. done.
  - destruct Hk as (Hic & Hev & H2).
    rewrite decrement_index_ge2 by done. simpl.
    destruct (decide (index s = index_copy)) as [E|E].
    + rewrite cas_success by done. intros [= <- <-]. simpl.
      split; [|done]. subst index_copy. split; word_arith.
    + rewrite cas_failure by done. intros [= <- <-]. done.
  - intros [= <- <-]. done.
Qed.
End LockFreeSteps.

(** ** The lock-free stack under any interleaving *)

Section LockFreeSystem.
Context {T : Type} `{ValueInit T}.
Import LFStack.

Lemma boot_ok (indeterminate : Z) (n nthreads : nat) :
  system_ok (T:=T) n (boot indeterminate n nthreads).
Proof.
  unfold system_ok, lfstack_ok, bounded, boot. simpl.
  repeat split; try word_arith.
  apply Forall_replicate. done.
Qed.

Lemma fire_ok (n : nat) (e : event T) (σ σ' : system T) :
  system_ok n σ → fire e σ = Done σ' → system_ok n σ'.
Proof.
  intros (Hs & Hsz & Hth). destruct e as [tid|tid c]; simpl.
  - destruct (threads σ !! tid) as [k|] eqn:Hk; [|by intros [= <-]].
    destruct (step (shared σ) k) as [[s' k']| |] eqn:Hstep; [|done..].
    simpl. intros [= <-].
    destruct (step_frame _ _ _ _ Hstep) as (Hsize & _ & _).
    destruct (step_ok _ _ _ _ Hs (Forall_lookup_1 _ _ _ _ Hth Hk) Hstep)
      as [Hs' Hk'].
    unfold system_ok. simpl. rewrite Hsize.
    split_and!; [done..|]. by apply Forall_insert.
  - destruct (threads σ !! tid) as [k|]; [|by intros [= <-]].
    destruct (returned k); intros [= <-]; [|done].
    unfold system_ok. simpl. split_and!; [done..|].
    apply Forall_insert; [done|]. by destruct c.
Qed.

Lemma play_ok (n : nat) (es : list (event T)) (σ σ' : system T) :
  system_ok n σ → play es σ = Done σ' → system_ok n σ'.
Proof.
  revert σ. induction es as [|e es IH]; simpl; intros σ Hok.
  - by intros [= <-].
  - destruct (fire e σ) as [σ1| |] eqn:Hfire; [|done..]. simpl.
    apply IH. by eapply fire_ok.
Qed.

(** C3: on a lock-free stack set up with [nonconcurrent_resize(n)], in
    every state that any number of threads reach by any interleaving of
    the steps of their [push] and [try_pop] calls in which every
    assertion held, the count field [index >> 1] is at most [size - 1]
    (the [uint32_t] subtraction of the code, which is [n - 1] for
    [0 < n < 2^32]), and every further step keeps it so. *)
Theorem lfstack_count_le_size_minus_1
    (indeterminate : Z) (n nthreads : nat)
    (es : list (event T)) (σ : system T) :
  play es (boot indeterminate n nthreads) = Done σ →
  size (shared σ) = wrap32 (Z.of_nat n)
  ∧ read_index (index (shared σ)) ≤ wrap32 (size (shared σ) - 1)
  ∧ (0 < Z.of_nat n < 2 ^ 32 →
     read_index (index (shared σ)) ≤ Z.of_nat n - 1)
  ∧ ∀ e σ', fire e σ = Done σ' →
      read_index (index (shared σ')) ≤ wrap32 (size (shared σ') - 1).
Proof.
  intros Hplay.
  pose proof (play_ok n es _ _ (boot_ok indeterminate n nthreads) Hplay)
    as Hok.
  pose proof Hok as ([Hu Hb] & Hsz & Hth).
  unfold bounded in Hb. split_and!; [done|done| |].
  - intros Hn. rewrite Hsz in Hb. word_arith.
  - intros e σ' Hfire.
    destruct (fire_ok n e σ σ' Hok Hfire) as ([_ Hb'] & _ & _). done.
Qed.

(** C10: in every state reached by any interleaving, a thread that is in
    [try_pop] at one of the two places where [decrement_index] is called
    holds an even [index_copy]; at the first place the [is_zero] test
    has it return [false] when [index_copy < 2], and otherwise, as
    always at the second place, [index_copy] is at least 2, the
    assertion [i > 0] holds and [i - 2] does not wrap. *)
Theorem try_pop_decrement_index_no_underflow
    (indeterminate : Z) (n nthreads : nat)
    (es : list (event T)) (σ : system T)
    (tid : nat) (dest : T) (index_copy : Z) :
  play es (boot indeterminate n nthreads) = Done σ →
  (threads σ !! tid = Some (PopRead dest index_copy) →
     Z.even index_copy = true
     ∧ (is_zero index_copy = true →
        step (shared σ) (PopRead dest index_copy)
        = Done (shared σ, PopReturn false dest))
     ∧ (is_zero index_copy = false →
        2 ≤ index_copy
        ∧ decrement_index index_copy = Done (index_copy - 2)
        ∧ 0 ≤ index_copy - 2))
  ∧ (threads σ !! tid = Some (PopCas dest index_copy) →
     Z.even index_copy = true
     ∧ 2 ≤ index_copy
     ∧ decrement_index index_copy = Done (index_copy - 2)
     ∧ 0 ≤ index_copy - 2).
Proof.
  intros Hplay.
  destruct (play_ok n es _ _ (boot_ok indeterminate n nthreads) Hplay)
    as (_ & _ & Hth).
  split; intros Hk; apply (Forall_lookup_1 _ _ _ _ Hth) in Hk; simpl in Hk.
  - destruct Hk as [Hu Hev]. split_and!; [done| |].
    + intros Hz. simpl. by rewrite Hz.
    + intros Hz. assert (2 ≤ index_copy) by word_arith.
      split_and!; [done| |lia]. by apply decrement_index_ge2.
  - destruct Hk as (Hu & Hev & H2). split_and!; [done..| |lia].
    by apply decrement_index_ge2.
Qed.
End LockFreeSystem.

Lemma lfstack_count_le_size_minus_1_witness :
  let σ := {| LFStack.shared :=
                {| LFStack.contents := [7; 0];
                   LFStack._contents := first_element;
                   LFStack.index := 2; LFStack.size := 2 |};
              LFStack.threads := [LFStack.PushReturn] |} in
  LFStack.read_index (LFStack.index (LFStack.shared σ))
  ≤ wrap32 (LFStack.size (LFStack.shared σ) - 1).
Proof.
  intros σ.
  refine (proj1 (proj2 (lfstack_count_le_size_minus_1 99 2 1
    (LFStack.Call 0 (LFStack.CallPush 7) :: replicate 6 (LFStack.Step 0))
    σ _))).
  reflexivity.
Defined.

Lemma try_pop_decrement_index_no_underflow_witness :
  LFStack.decrement_index 2 = Done 0.
Proof.
  refine (proj1 (proj2 (proj2 (proj2 (try_pop_decrement_index_no_underflow
    99 2 1
    (LFStack.Call 0 (LFStack.CallPush 7) :: replicate 6 (LFStack.Step 0)
     ++ LFStack.Call 0 (LFStack.CallTryPop (-1))
     :: replicate 3 (LFStack.Step 0))
    {| LFStack.shared :=
         {| LFStack.contents := [7; 0];
            LFStack._contents := first_element;
            LFStack.index := 2; LFStack.size := 2 |};
       LFStack.threads := [LFStack.PopCas 7 2] |}
    0%nat 7 2 _) eq_refl)))).
  reflexivity.
Defined.

(** ** A lock-free call that runs alone *)

Section LockFreeAlone.
Context {T : Type} `{ValueInit T}.
Import LFStack.

Lemma store_in_range (c : list T) (i : Z) (t : T) :
  0 ≤ i < Z.of_nat (length c) →
  store first_element c i t = Done (<[Z.to_nat i := t]> c).
Proof.
  intros Hi. unfold store.
  destruct (lookup_lt_is_Some_2 c (Z.to_nat i)) as [v ->]; [lia|done].
Qed.

Lemma fetch_in_range (c : list T) (i : Z) (v : T) :
  c !! Z.to_nat i = Some v → fetch first_element c i = Done v.
Proof. intros E. unfold fetch. by rewrite E. Qed.

(** [push] alone: six steps, the slot [count] written, the control word
    left at [increment_index (clean_index index)]. *)
Lemma push_alone (t : T) (s : lfstack T) :
  is_u32 (index s) →
  _contents s = first_element →
  read_index (index s) < wrap32 (size s - 1) →
  read_index (index s) < Z.of_nat (length (contents s)) →
  push alone t s
  = Some (Done {| contents :=
                    <[Z.to_nat (read_index (index s)) := t]> (contents s);
                  _contents := _contents s;
                  index := increment_index (clean_index (index s));
                  size := size s |}).
Proof.
  intros Hu Hp Ha Hr.
  destruct (flag_index_facts _ Hu) as (Hfu & Hfr & _).
  destruct (clean_index_facts _ Hfu) as (_ & _ & Hcr & _).
  assert (clean_index (flag_index (index s)) = clean_index (index s))
    as Hcf.
  { rewrite !clean_index_spec by done.
    rewrite !read_index_spec in Hfr. by rewrite Hfr. }
  unfold push, alone. simpl. rewrite Hp. simpl.
  rewrite cas_success by done. simpl.
  unfold load. simpl. rewrite Hfr.
  rewrite (proj2 (Z.ltb_lt _ _) Ha). simpl.
  rewrite Hp, Hcr, Hfr.
  rewrite store_in_range by (rewrite read_index_spec in *; word_arith).
  simpl. rewrite cas_success by done. simpl.
  unfold set_index. simpl. by rewrite Hcf.
Qed.

(** The loop of [push] (l.174-181) alone, entered with the control word
    of [s]: three steps, the slot [count] written, the control word left
    at [increment_index (clean_index index)]. *)
Lemma publish_alone (t : T) (s : lfstack T) :
  is_u32 (index s) →
  _contents s = first_element →
  read_index (index s) < wrap32 (size s - 1) →
  read_index (index s) < Z.of_nat (length (contents s)) →
  run 3 s (PublishLoad t)
  = Some (Done ({| contents :=
                     <[Z.to_nat (read_index (index s)) := t]> (contents s);
                   _contents := _contents s;
                   index := increment_index (clean_index (index s));
                   size := size s |}, PushReturn)).
Proof.
  intros Hu Hp Ha Hr.
  destruct (clean_index_facts _ Hu) as (_ & _ & Hcr & _).
  simpl. unfold load.
  rewrite (proj2 (Z.ltb_lt _ _) Ha). simpl.
  rewrite Hp, Hcr.
  rewrite store_in_range by (rewrite read_index_spec in *; word_arith).
  simpl. by rewrite cas_success.
Qed.

End LockFreeAlone.

(** ** The compare-and-swap of [try_pop] and the publishing one of [push] *)

Section LockFreeCas.
Context {T : Type} `{ValueInit T}.
Import LFStack.

(** C1, as the code has it: when the count obtained by masking the
    observed control word is not zero, [try_pop] reads slot [count - 1]
    and then compares the control word with the masked value it keeps in
    [index_copy] (flag bit cleared), not with the raw word it loaded;
    the new word is [count - 1] with the flag at 0.  The exchange
    succeeds exactly when the control word then equals the masked value,
    and the call returns [true] with the slot in [dest]; otherwise the
    loop starts over. *)
Theorem try_pop_cas_from_masked_word (s : lfstack T) (dest v : T) :
  is_u32 (index s) →
  let raw := load s in
  let count := read_index raw in
  let index_copy := clean_index raw in
  is_zero index_copy = false →
  fetch (_contents s) (contents s) (count - 1) = Done v →
  index_copy = 2 * count
  ∧ step s (PopLoad dest) = Done (s, PopRead dest index_copy)
  ∧ step s (PopRead dest index_copy) = Done (s, PopCas v index_copy)
  ∧ ∀ s' : lfstack T,
      (index s' = index_copy →
       step s' (PopCas v index_copy)
       = Done (set_index s' (2 * (count - 1)), PopReturn true v)
       ∧ read_index (2 * (count - 1)) = count - 1
       ∧ Z.land (2 * (count - 1)) 1 = 0)
      ∧ (index s' ≠ index_copy →
         step s' (PopCas v index_copy) = Done (s', PopLoad v)).
Proof.
  intros Hu raw count index_copy Hz Hv.
  destruct (clean_index_facts _ Hu) as (Hcu & Hev & Hcr & _).
  assert (index_copy = 2 * count) as E.
  { unfold index_copy, count, raw, load.
    rewrite clean_index_spec, read_index_spec; done. }
  assert (2 ≤ index_copy) as H2 by (fold index_copy in Hz; word_arith).
  assert (index_copy - 2 = 2 * (count - 1)) as E2 by lia.
  split_and!; [done|done| |].
  - simpl. rewrite Hz, decrement_index_ge2 by done. simpl.
    replace (read_index (index_copy - 2)) with (count - 1)
      by (rewrite E2; word_arith).
    by rewrite Hv.
  - intros s'. split.
    + intros Hs'. split_and!.
      * simpl. rewrite decrement_index_ge2 by done. simpl.
        rewrite cas_success by done. by rewrite E2.
      * word_arith.
      * rewrite flag_bit_spec. word_arith.
    + intros Hs'. simpl. rewrite decrement_index_ge2 by done. simpl.
      by rewrite cas_failure.
Qed.

(** C2, within the range of the count field, for the loop of [push]
    (l.174-181) that follows [acquire_write_rights]: with the storage set
    up, the assertion [count < size - 1] true, the slot inside the vector
    and [count + 1] below [2^31], the loop entered alone writes the slot,
    its publishing exchange succeeds and the call returns with the
    control word at [count + 1] and the flag at 0; and, with other
    threads around, whenever the publishing exchange of a [push] that
    observed [index_copy] succeeds it leaves exactly that word. *)
Theorem push_publishes_count_plus_1 (s : lfstack T) (t : T) :
  is_u32 (index s) →
  _contents s = first_element →
  let count := read_index (index s) in
  count < wrap32 (size s - 1) →
  count < Z.of_nat (length (contents s)) →
  count < 2 ^ 31 - 1 →
  (∃ s', run 3 s (PublishLoad t) = Some (Done (s', PushReturn))
         ∧ index s' = 2 * (count + 1)
         ∧ read_index (index s') = count + 1
         ∧ Z.land (index s') 1 = 0
         ∧ contents s' = <[Z.to_nat count := t]> (contents s))
  ∧ ∀ (s2 : lfstack T) (index_copy : Z),
      is_u32 index_copy → read_index index_copy = count →
      index s2 = index_copy →
      step s2 (PublishCas t index_copy)
      = Done (set_index s2 (2 * (count + 1)), PushReturn).
Proof.
  intros Hu Hp count Ha Hr H31.
  assert (∀ i, is_u32 i → read_index i = count →
               increment_index (clean_index i) = 2 * (count + 1)) as Hinc.
  { intros i Hi Hc. rewrite clean_index_spec by done.
    rewrite read_index_spec in Hc. word_arith. }
  split.
  - eexists. split; [by apply publish_alone|]. simpl.
    rewrite Hinc by done. split_and!; [done| | |done].
    + word_arith.
    + rewrite flag_bit_spec. word_arith.
  - intros s2 index_copy Hi Hc Hs2. simpl.
    rewrite cas_success by done. simpl. by rewrite Hinc.
Qed.
End LockFreeCas.

(** C1 as stated fails while a [push] is in flight.  Thread 0 has pushed
    7 and, in a second [push], has set the flag: the control word is 3.
    Thread 1 calls [try_pop] and observes 3; its exchange compares the
    control word with the masked 2, not with the 3 it observed, and fails
    although the control word still is 3. *)
Lemma try_pop_cas_not_from_raw_word :
  let flagged :=
    {| LFStack.contents := [7; 0; 0];
       LFStack._contents := first_element;
       LFStack.index := 3; LFStack.size := 3 |} in
  LFStack.play (LFStack.Call 0 (LFStack.CallPush 7)
                :: replicate 6 (LFStack.Step 0)
                ++ LFStack.Call 0 (LFStack.CallPush 8)
                :: replicate 3 (LFStack.Step 0)
                ++ LFStack.Call 1 (LFStack.CallTryPop (-1))
                :: replicate 3 (LFStack.Step 1))
               (LFStack.boot 0 3 2)
  = Done {| LFStack.shared := flagged;
            LFStack.threads :=
              [LFStack.PublishLoad 8; LFStack.PopCas 7 2] |}
  ∧ LFStack.load flagged = 3
  ∧ LFStack.step flagged (LFStack.PopCas 7 2)
    = Done (flagged, LFStack.PopLoad 7).
Proof. intros flagged. split_and!; by vm_compute. Qed.

Lemma try_pop_cas_from_masked_word_witness :
  let s := {| LFStack.contents := [7; 0];
              LFStack._contents := first_element;
              LFStack.index := 3; LFStack.size := 2 |} in
  LFStack.step s (LFStack.PopRead (-1) 2) = Done (s, LFStack.PopCas 7 2).
Proof.
  intros s.
  refine (proj1 (proj2 (proj2
    (try_pop_cas_from_masked_word s (-1) 7 _ _ _)))); vm_compute; done.
Defined.

Lemma push_publishes_count_plus_1_witness :
  let s := {| LFStack.contents := [7; 0; 0];
              LFStack._contents := first_element;
              LFStack.index := 3; LFStack.size := 3 |} in
  ∃ s', LFStack.run 3 s (LFStack.PublishLoad 8)
        = Some (Done (s', LFStack.PushReturn))
        ∧ LFStack.index s' = 4.
Proof.
  intros s.
  destruct (proj1 (push_publishes_count_plus_1 s 8
    ltac:(vm_compute; done) eq_refl ltac:(vm_compute; done)
    ltac:(vm_compute; done) ltac:(vm_compute; done)))
    as (s' & Hs' & Hi & _).
  exists s'. split; [exact Hs'|exact Hi].
Defined.

(** ** The plain stack *)

Section Plain.
Context {T : Type} `{ValueInit T}.

(** C9: [stack::resize] leaves [size] alone, so on a stack built by the
    default constructor it stays 0 whatever [n] is; [size - 1] is then
    [4294967295] in [uint32_t], and the capacity assertion of [push]
    holds at every index up to [2^32 - 2] (and at no other), for every
    capacity [n]. *)
Theorem plain_resize_never_sets_size (n : nat) (s : Stack.stack T) :
  Stack.size (Stack.resize n s) = Stack.size s
  ∧ Stack.size (Stack.resize n (Stack.new (T:=T))) = 0
  ∧ wrap32 (0 - 1) = 4294967295
  ∧ ∀ s' : Stack.stack T,
      Stack.size s' = Stack.size (Stack.resize n (Stack.new (T:=T))) →
      is_u32 (Stack.index s') →
      (Stack.push_guard s' = true ↔ Stack.index s' ≤ 2 ^ 32 - 2).
Proof.
  split_and!; [done..|].
  intros s' Hs' Hi. unfold Stack.push_guard. rewrite Hs'. simpl.
  change (wrap32 (0 - 1)) with 4294967295.
  rewrite Z.ltb_lt. unfold is_u32 in Hi. lia.
Qed.
End Plain.

Lemma plain_resize_never_sets_size_witness :
  let s := {| Stack.contents := [1; 2]; Stack._contents := first_element;
              Stack.index := 2; Stack.size := 0 |} in
  Stack.index s ≤ 2 ^ 32 - 2 ∧ Stack.push_guard s = true.
Proof.
  intros s. split; [by vm_compute|].
  refine (proj2 (proj2 (proj2 (proj2
    (plain_resize_never_sets_size 2 s))) s eq_refl _) _); by vm_compute.
Defined.

(** C4 on the plain stack: after [resize(2)] the second [push] does not
    trip the assertion; it returns with [index = 2 = capacity], and the
    third writes past the end of the vector.  The lock-free stack trips
    the assertion at the second [push]. *)
Theorem plain_push_past_capacity_no_assert :
  run_ops [Push 1; Push 2] (-1) (Stack.resize 2 Stack.new)
  = Some (Done ([], -1,
                {| Stack.contents := [1; 2];
                   Stack._contents := first_element;
                   Stack.index := 2; Stack.size := 0 |}))
  ∧ run_ops [Push 1; Push 2; Push 3] (-1) (Stack.resize 2 Stack.new)
    = Some Undefined
  ∧ run_ops [Push 1; Push 2] (-1)
      (LFStack.nonconcurrent_resize 2 (LFStack.new 0))
    = Some AssertFailed.
Proof. split_and!; reflexivity. Qed.

(** C6: the scenario of [main], with a fourth [try_pop].  On the plain
    and on the guarded stack it gives [(true, 3)], [(true, 2)],
    [(true, 1)], then [false] with [r] still 1.  On the lock-free stack
    the first [push] does not come back: it passes
    [assert(_contents != nullptr)], its exchange in
    [acquire_write_rights] succeeds, and control flows off the end of
    that function, whatever the atomic held before
    [nonconcurrent_resize] and however many steps are allowed. *)
Theorem main_scenario (indeterminate : Z) :
  let scenario := [Push 1; Push 2; Push 3; TryPop; TryPop; TryPop; TryPop] in
  let seen := [(true, 3); (true, 2); (true, 1); (false, 1)] in
  observe scenario (-1) (Stack.resize 100 Stack.new) = Some (Done (seen, 1))
  ∧ observe scenario (-1) (LStack.nonconcurrent_resize 100 LStack.new)
    = Some (Done (seen, 1))
  ∧ observe (H:=conforming_lfstack_ops) scenario (-1)
      (LFStack.nonconcurrent_resize 100 (LFStack.new indeterminate))
    = Some Undefined
  ∧ ∀ fuel : nat,
      LFStack.conforming_push (3 + fuel) 1
        (LFStack.nonconcurrent_resize 100 (LFStack.new indeterminate))
      = Some Undefined.
Proof. split_and!; reflexivity. Qed.

(** ** The guarded stack against the plain stack *)

Section Guarded.
Context {T : Type} `{ValueInit T}.

Lemma guarded_push (t : T) (s : Stack.stack T) :
  LStack.push t (guarded s) = guarded <$> Stack.push t s.
Proof. unfold LStack.push. simpl. by destruct (Stack.push t s). Qed.

Lemma guarded_try_pop (t : T) (s : Stack.stack T) :
  LStack.try_pop t (guarded s)
  = (λ r, (r.1.1, r.1.2, guarded r.2)) <$> Stack.try_pop t s.
Proof.
  unfold LStack.try_pop. simpl. by destruct (Stack.try_pop t s).
Qed.

Lemma guarded_run_ops (ops : list (op T)) (r : T) (s : Stack.stack T) :
  run_ops ops r (guarded s)
  = match run_ops ops r s with
    | Some (Done (seen, r', s')) => Some (Done (seen, r', guarded s'))
    | Some AssertFailed => Some AssertFailed
    | Some Undefined => Some Undefined
    | None => None
    end.
Proof.
  revert r s. induction ops as [|[t|] ops IH]; intros r s; simpl.
  - done.
  - rewrite guarded_push. destruct (Stack.push t s) as [s'| |]; simpl;
      [apply IH|done..].
  - rewrite guarded_try_pop.
    destruct (Stack.try_pop r s) as [[[b r'] s']| |]; simpl; [|done..].
    rewrite IH.
    by destruct (run_ops ops r' s') as [[[[seen r''] s'']| |]|].
Qed.

(** C8: used by one thread, the guarded stack behaves as the plain
    stack it wraps.  [guarded s] being the guarded stack around [s]
    with its mutex free, each [push] and [try_pop] on [guarded s]
    returns what the plain call on [s] returns and leaves [guarded] of
    the plain stack's new state; hence, after
    [nonconcurrent_resize(n)] and any sequence of calls, the flags and
    values seen and the final state are those of the plain stack after
    [resize(n)] and the same calls. *)
Theorem guarded_behaves_as_plain
    (n : nat) (ops : list (op T)) (r : T) :
  LStack.nonconcurrent_resize n LStack.new
  = guarded (Stack.resize n Stack.new)
  ∧ (∀ (t : T) (s : Stack.stack T),
       LStack.push t (guarded s) = guarded <$> Stack.push t s)
  ∧ (∀ (t : T) (s : Stack.stack T),
       LStack.try_pop t (guarded s)
       = (λ r, (r.1.1, r.1.2, guarded r.2)) <$> Stack.try_pop t s)
  ∧ run_ops ops r (LStack.nonconcurrent_resize n LStack.new)
    = match run_ops ops r (Stack.resize n Stack.new) with
      | Some (Done (seen, r', s')) => Some (Done (seen, r', guarded s'))
      | Some AssertFailed => Some AssertFailed
      | Some Undefined => Some Undefined
      | None => None
      end
  ∧ observe ops r (LStack.nonconcurrent_resize n LStack.new)
    = observe ops r (Stack.resize n Stack.new).
Proof.
  change (LStack.nonconcurrent_resize n LStack.new)
    with (guarded (Stack.resize n (Stack.new (T:=T)))).
  split_and!.
  - done.
  - apply guarded_push.
  - apply guarded_try_pop.
  - apply guarded_run_ops.
  - unfold observe. rewrite guarded_run_ops.
    by destruct (run_ops ops r (Stack.resize n Stack.new))
      as [[[[seen r'] s']| |]|].
Qed.
End Guarded.

(** ** [try_pop] on an empty stack *)

Section EmptyPop.
Context {T : Type} `{ValueInit T}.
Import LFStack.

Lemma plain_try_pop_false (s s' : Stack.stack T) (t t' : T) :
  Stack.try_pop t s = Done (false, t', s') →
  Stack.index s = 0 ∧ t' = t ∧ s' = s.
Proof.
  unfold Stack.try_pop.
  destruct (Stack.index s =? 0) eqn:E.
  - intros [= <- <-]. by apply Z.eqb_eq in E.
  - destruct (assert _); simpl; [|done..].
    destruct (fetch _ _ _); simpl; done.
Qed.

(** A thread alone in the retry loop of [try_pop] on a stack that holds
    an element never comes out of it with [false]. *)
Lemma pop_loop_alone_not_false
    (s s' : lfstack T) (fuel : nat) (d d' : T) :
  is_u32 (index s) → read_index (index s) ≠ 0 →
  run fuel s (PopLoad d) ≠ Some (Done (s', PopReturn false d')).
Proof.
  intros Hu Hc. revert d.
  induction fuel as [fuel IH] using lt_wf_ind. intros d.
  destruct (clean_index_facts _ Hu) as (Hcu & Hev & Hcr & _).
  assert (2 ≤ clean_index (index s)) as H2.
  { rewrite <- Hcr in Hc. word_arith. }
  destruct fuel as [|[|[|fuel]]]; [done|done|..].
  - simpl. unfold load.
    replace (is_zero (clean_index (index s))) with false
      by (symmetry; apply Z.ltb_ge; lia).
    rewrite decrement_index_ge2 by done. simpl.
    by destruct (fetch _ _ _).
  - simpl. unfold load.
    replace (is_zero (clean_index (index s))) with false
      by (symmetry; apply Z.ltb_ge; lia).
    rewrite decrement_index_ge2 by done. simpl.
    destruct (fetch _ _ _) as [v| |]; simpl; [|done..].
    rewrite decrement_index_ge2 by done. simpl.
    destruct (decide (index s = clean_index (index s))) as [E|E].
    + rewrite cas_success by done. simpl. by destruct fuel.
    + rewrite cas_failure by done. simpl. apply IH. lia.
Qed.

(** C7, as the code has it.  On the plain stack, on the guarded stack,
    and on the lock-free stack when the caller runs alone, [try_pop]
    returns [false] exactly when the stack is empty at the call, and
    then the argument and the stack are as before; the lock-free call
    reaches that return in its first three steps, before any
    compare-and-swap.  With other threads around, [try_pop] returns
    [false] from the [is_zero] test on the word observed in the current
    round of its loop, and no other step of any operation ends in a
    reported failure.  The lock-free [try_pop] starts with
    [assert(_contents != nullptr)]: on a stack whose storage was not set
    up it trips that assertion, empty or not. *)
Theorem try_pop_false_iff_empty :
  (∀ (s : Stack.stack T) (t : T),
     (Stack.index s = 0 → Stack.try_pop t s = Done (false, t, s))
     ∧ ∀ t' s', Stack.try_pop t s = Done (false, t', s') →
                Stack.index s = 0 ∧ t' = t ∧ s' = s)
  ∧ (∀ (s : Stack.stack T) (t : T),
       (Stack.index s = 0 →
        LStack.try_pop t (guarded s) = Done (false, t, guarded s))
       ∧ ∀ t' s', LStack.try_pop t (guarded s) = Done (false, t', s') →
                  Stack.index s = 0 ∧ t' = t ∧ s' = guarded s)
  ∧ (∀ (s : lfstack T) (dest : T),
       is_u32 (index s) → _contents s = first_element →
       (read_index (index s) = 0 →
        try_pop 3 dest s = Some (Done (false, dest, s))
        ∧ step s (PopEntry dest) = Done (s, PopLoad dest)
        ∧ step s (PopLoad dest)
          = Done (s, PopRead dest (clean_index (load s)))
        ∧ step s (PopRead dest (clean_index (load s)))
          = Done (s, PopReturn false dest))
       ∧ ∀ fuel t' s',
           try_pop fuel dest s = Some (Done (false, t', s')) →
           read_index (index s) = 0 ∧ t' = dest ∧ s' = s)
  ∧ (∀ (s : lfstack T) (d : T) (index_copy : Z),
       is_zero index_copy = true →
       step s (PopRead d index_copy) = Done (s, PopReturn false d))
  ∧ (∀ (s s' : lfstack T) (k : point T) (d : T),
       returned k = false →
       step s k = Done (s', PopReturn false d) →
       ∃ index_copy, k = PopRead d index_copy
                     ∧ is_zero index_copy = true ∧ s' = s)
  ∧ (∀ (s : lfstack T) (dest : T) (fuel : nat),
       _contents s = nullptr →
       try_pop (S fuel) dest s = Some AssertFailed).
Proof.
  split_and!; [| | | | |intros s dest fuel Hp; unfold try_pop; simpl;
                         by rewrite Hp].
  - intros s t. split.
    + intros E. unfold Stack.try_pop. by rewrite E.
    + intros t' s'. apply plain_try_pop_false.
  - intros s t. split.
    + intros E. unfold LStack.try_pop, Stack.try_pop. simpl.
      by rewrite E.
    + intros t' s'. unfold LStack.try_pop. simpl.
      destruct (Stack.try_pop t s) as [[[b r'] s1]| |] eqn:Hp; [|done..].
      simpl. intros [= -> <- <-].
      by destruct (plain_try_pop_false _ _ _ _ Hp) as (? & ? & ->).
  - intros s dest Hu Hp.
    destruct (clean_index_facts _ Hu) as (Hcu & Hev & Hcr & _).
    split.
    + intros Hc.
      assert (is_zero (clean_index (index s)) = true) as Hz.
      { apply Z.ltb_lt. rewrite <- Hcr in Hc. word_arith. }
      unfold try_pop, load. simpl. rewrite Hp. simpl.
      unfold load. by rewrite Hz.
    + intros fuel t' s'.
      destruct (decide (read_index (index s) = 0)) as [Hc|Hc].
      * assert (is_zero (clean_index (index s)) = true) as Hz.
        { apply Z.ltb_lt. rewrite <- Hcr in Hc. word_arith. }
        destruct fuel as [|[|[|fuel]]]; unfold try_pop; simpl;
          rewrite ?Hp; simpl; unfold load; rewrite ?Hz; simpl; try done.
        destruct fuel; simpl; by intros [= <- <-].
      * destruct fuel as [|fuel]; unfold try_pop; simpl; [done|].
        rewrite Hp. simpl.
        destruct (run fuel s (PopLoad dest)) as [[[s1 k1]| |]|] eqn:Hrun;
          simpl; try done.
        destruct k1; try done. intros E. simplify_eq.
        by apply pop_loop_alone_not_false in Hrun.
  - intros s d index_copy Hz. simpl. by rewrite Hz.
  - intros s s' k d Hk.
    destruct k; simpl in *; try done;
      unfold compare_exchange_strong;
      repeat match goal with
      | |- context [assert ?b] => destruct b; simpl
      | |- context [?a =? ?b] => destruct (a =? b); simpl
      | |- context [decrement_index ?i] =>
          destruct (decrement_index i); simpl
      | |- context [store ?p ?c ?i ?t] =>
          destruct (store p c i t); simpl
      | |- context [fetch ?p ?c ?i] =>
          destruct (fetch p c i); simpl
      | |- context [is_zero ?i] => destruct (is_zero i) eqn:Hz; simpl
      end; try done.
    all: intros [= <- <-]; by exists index_copy.
Qed.
End EmptyPop.

(** C7 as stated fails on the lock-free stack.  Two threads, one element
    7.  Thread 1 calls [try_pop] with [dest = -1], sees count 1 and copies
    7 into [dest]; thread 0 then pops the element; the exchange of thread
    1 fails, it looks again, sees count 0 and returns [false]: the stack
    was not empty when it was called, and [dest] is 7. *)
Lemma try_pop_false_nonempty_dest_changed :
  let pushed :=
    {| LFStack.shared :=
         {| LFStack.contents := [7; 0];
            LFStack._contents := first_element;
            LFStack.index := 2; LFStack.size := 2 |};
       LFStack.threads := [LFStack.PushReturn; LFStack.Idle] |} in
  LFStack.play (LFStack.Call 0 (LFStack.CallPush 7)
                :: replicate 6 (LFStack.Step 0))
               (LFStack.boot 0 2 2)
  = Done pushed
  ∧ LFStack.read_index (LFStack.index (LFStack.shared pushed)) = 1
  ∧ LFStack.play (LFStack.Call 1 (LFStack.CallTryPop (-1))
                  :: replicate 3 (LFStack.Step 1)
                  ++ LFStack.Call 0 (LFStack.CallTryPop (-1))
                  :: replicate 4 (LFStack.Step 0)
                  ++ replicate 3 (LFStack.Step 1))
                 pushed
    = Done {| LFStack.shared :=
                {| LFStack.contents := [7; 0];
                   LFStack._contents := first_element;
                   LFStack.index := 0; LFStack.size := 2 |};
              LFStack.threads :=
                [LFStack.PopReturn true 7; LFStack.PopReturn false 7] |}.
Proof. intros pushed. split_and!; by vm_compute. Qed.

Lemma try_pop_false_iff_empty_witness :
  let s := LFStack.nonconcurrent_resize 2 (LFStack.new 0) in
  LFStack.try_pop 3 (-1) s = Some (Done (false, -1, s)).
Proof.
  intros s.
  refine (proj1 (proj1 (proj1 (proj2 (proj2 try_pop_false_iff_empty))
    s (-1) _ eq_refl) eq_refl)).
  by vm_compute.
Defined.

(** ** Last in, first out

    The argument is the same for the three classes: it needs an invariant
    [ok], the logical content [elements] of a stack (bottom first), the
    number [room] of elements [push] accepts, and what [push] and
    [try_pop] do to the content. *)

Section Lifo.
Context {T S : Type} `{StackOps T S}.
Variables (ok : S → Prop) (elements : S → list T) (room : Z).

Hypothesis push_law : ∀ (t : T) (s : S),
  ok s → Z.of_nat (length (elements s)) < room →
  ∃ s', ops_push t s = Some (Done s')
        ∧ ok s' ∧ elements s' = elements s ++ [t].

Hypothesis pop_law : ∀ (r : T) (s : S) (l : list T) (v : T),
  ok s → elements s = l ++ [v] →
  ∃ s', ops_try_pop r s = Some (Done (true, v, s'))
        ∧ ok s' ∧ elements s' = l.

Lemma run_ops_app (ops1 ops2 : list (op T)) (r : T) (s : S) :
  run_ops (ops1 ++ ops2) r s
  = match run_ops ops1 r s with
    | Some (Done (seen1, r1, s1)) =>
        match run_ops ops2 r1 s1 with
        | Some (Done (seen2, r2, s2)) =>
            Some (Done (seen1 ++ seen2, r2, s2))
        | other => other
        end
    | other => other
    end.
Proof.
  revert r s. induction ops1 as [|[t|] ops1 IH]; intros r s; simpl.
  - by destruct (run_ops ops2 r s) as [[[[seen2 r2] s2]| |]|].
  - destruct (ops_push t s) as [[s'| |]|]; [apply IH|done..].
  - destruct (ops_try_pop r s) as [[[[b r'] s']| |]|]; [|done..].
    rewrite IH.
    destruct (run_ops ops1 r' s') as [[[[seen1 r1] s1]| |]|]; [|done..].
    by destruct (run_ops ops2 r1 s1) as [[[[seen2 r2] s2]| |]|].
Qed.

Lemma run_pushes (vs : list T) (r : T) (s : S) :
  ok s → Z.of_nat (length (elements s) + length vs) ≤ room →
  ∃ s', run_ops (Push <$> vs) r s = Some (Done ([], r, s'))
        ∧ ok s' ∧ elements s' = elements s ++ vs.
Proof.
  revert s. induction vs as [|v vs IH]; intros s Hok Hroom; simpl.
  - exists s. by rewrite app_nil_r.
  - simpl in Hroom.
    destruct (push_law v s Hok) as (s1 & -> & Hok1 & He1); [lia|].
    destruct (IH s1 Hok1) as (s' & Hrun & Hok' & He').
    { rewrite He1, length_app. simpl. lia. }
    exists s'. split_and!; [done..|].
    by rewrite He', He1, <- app_assoc.
Qed.

Lemma run_pops (l : list T) (r : T) (s : S) :
  ok s → elements s = l →
  ∃ r' s', run_ops (replicate (length l) TryPop) r s
           = Some (Done ((λ v, (true, v)) <$> reverse l, r', s'))
           ∧ ok s' ∧ elements s' = [].
Proof.
  revert r s. induction l as [|v l IH] using rev_ind; intros r s Hok He.
  - exists r, s. done.
  - rewrite length_app, Nat.add_comm, reverse_app. simpl.
    destruct (pop_law r s l v Hok He) as (s1 & -> & Hok1 & He1).
    destruct (IH v s1 Hok1 He1) as (r' & s' & -> & Hok' & He').
    exists r', s'. done.
Qed.

Lemma run_lifo (vs : list T) (r : T) (s : S) :
  ok s → elements s = [] → Z.of_nat (length vs) ≤ room →
  ∃ r', observe (fmap Push vs ++ replicate (length vs) TryPop) r s
        = Some (Done ((λ v, (true, v)) <$> reverse vs, r')).
Proof.
  intros Hok He Hroom.
  destruct (run_pushes vs r s Hok) as (s1 & Hrun1 & Hok1 & He1).
  { rewrite He. simpl. lia. }
  rewrite He in He1. simpl in He1.
  destruct (run_pops vs r s1 Hok1 He1) as (r' & s' & Hrun2 & _).
  exists r'. unfold observe. by rewrite run_ops_app, Hrun1, Hrun2.
Qed.
End Lifo.

(** ** The three classes satisfy the laws *)

Section Laws.
Context {T : Type} `{ValueInit T}.

Lemma take_insert_snoc (c : list T) (i : nat) (t : T) :
  (i < length c)%nat → take (S i) (<[i := t]> c) = take i c ++ [t].
Proof.
  intros Hi.
  rewrite (take_S_r _ _ t) by by apply list_lookup_insert_eq.
  by rewrite take_insert_ge.
Qed.

Lemma take_snoc_top (c l : list T) (n : nat) (v : T) :
  take n c = l ++ [v] → (n ≤ length c)%nat →
  n = S (length l) ∧ c !! length l = Some v ∧ take (length l) c = l.
Proof.
  intros Ht Hn.
  assert (n = S (length l)) as ->.
  { apply (f_equal length) in Ht.
    rewrite length_take_le, length_app in Ht by done. simpl in Ht. lia. }
  split_and!; [done| |].
  - rewrite <- (lookup_take_lt c (S (length l))) by lia.
    rewrite Ht. by apply list_lookup_middle.
  - transitivity (take (length l) (take (S (length l)) c)).
    + rewrite take_take. f_equal. lia.
    + rewrite Ht. apply take_app_length.
Qed.

(** *** Plain *)

Lemma plain_resize_ok (cap : nat) :
  (0 < cap)%nat →
  plain_ok (T:=T) cap (Stack.resize cap Stack.new)
  ∧ stack_elements (T:=T) (Stack.resize cap Stack.new) = [].
Proof.
  intros Hcap. unfold plain_ok, Stack.resize. simpl.
  rewrite length_vector_resize.
  split_and!; try done; try lia.
  unfold vector_resize. simpl. by destruct cap; [lia|].
Qed.

Lemma plain_push_law (cap : nat) (t : T) (s : Stack.stack T) :
  plain_ok cap s →
  Z.of_nat (length (stack_elements s)) < plain_room cap →
  ∃ s', ops_push t s = Some (Done s')
        ∧ plain_ok cap s' ∧ stack_elements s' = stack_elements s ++ [t].
Proof.
  intros (Hp & Hsz & Hlen & Hi & Hu). unfold stack_elements, plain_room.
  rewrite length_take_le by lia. intros Hroom.
  simpl. unfold Stack.push, Stack.push_guard. rewrite Hp, Hsz.
  change (wrap32 (0 - 1)) with 4294967295.
  replace (Stack.index s <? 4294967295) with true
    by (symmetry; apply Z.ltb_lt; lia).
  rewrite store_in_range by lia. simpl.
  eexists. split; [done|].
  assert (wrap32 (Stack.index s + 1) = Stack.index s + 1) as ->
    by word_arith.
  unfold plain_ok. simpl. rewrite length_insert.
  split_and!; try done; try lia.
  replace (Z.to_nat (Stack.index s + 1))
    with (S (Z.to_nat (Stack.index s))) by lia.
  apply take_insert_snoc. lia.
Qed.

Lemma plain_pop_law (cap : nat) (r : T) (s : Stack.stack T)
    (l : list T) (v : T) :
  plain_ok cap s → stack_elements s = l ++ [v] →
  ∃ s', ops_try_pop r s = Some (Done (true, v, s'))
        ∧ plain_ok cap s' ∧ stack_elements s' = l.
Proof.
  intros (Hp & Hsz & Hlen & Hi & Hu) He. unfold stack_elements in He.
  destruct (take_snoc_top _ _ _ _ He) as (Hn & Hv & Hl); [lia|].
  assert (wrap32 (Stack.index s - 1) = Z.of_nat (length l)) as Hw
    by word_arith.
  simpl. unfold Stack.try_pop.
  replace (Stack.index s =? 0) with false
    by (symmetry; apply Z.eqb_neq; lia).
  replace (0 <? Stack.index s) with true
    by (symmetry; apply Z.ltb_lt; lia).
  simpl. rewrite Hw, Hp.
  rewrite (fetch_in_range _ _ v) by by rewrite Nat2Z.id.
  simpl. eexists. split; [done|].
  unfold plain_ok, stack_elements. simpl. rewrite Nat2Z.id.
  split_and!; try done; lia.
Qed.

(** *** Guarded *)

Lemma guarded_push_law (cap : nat) (t : T) (s : LStack.lstack T) :
  guarded_ok cap s →
  Z.of_nat (length (stack_elements (LStack.wrapped s))) < plain_room cap →
  ∃ s', ops_push t s = Some (Done s')
        ∧ guarded_ok cap s'
        ∧ stack_elements (LStack.wrapped s')
          = stack_elements (LStack.wrapped s) ++ [t].
Proof.
  destruct s as [p m]. intros [Hm Hok] Hroom. simpl in *. subst m.
  destruct (plain_push_law cap t p Hok Hroom) as (p' & Hpush & Hok' & He).
  exists (guarded p'). simpl in Hpush. injection Hpush as Hpush.
  change {| LStack.wrapped := p; LStack.mx := false |} with (guarded p).
  by rewrite guarded_push, Hpush.
Qed.

Lemma guarded_pop_law (cap : nat) (r : T) (s : LStack.lstack T)
    (l : list T) (v : T) :
  guarded_ok cap s → stack_elements (LStack.wrapped s) = l ++ [v] →
  ∃ s', ops_try_pop r s = Some (Done (true, v, s'))
        ∧ guarded_ok cap s' ∧ stack_elements (LStack.wrapped s') = l.
Proof.
  destruct s as [p m]. intros [Hm Hok] He. simpl in *. subst m.
  destruct (plain_pop_law cap r p l v Hok He) as (p' & Hpop & Hok' & He').
  exists (guarded p'). simpl in Hpop. injection Hpop as Hpop.
  change {| LStack.wrapped := p; LStack.mx := false |} with (guarded p).
  by rewrite guarded_try_pop, Hpop.
Qed.

(** *** Lock-free, one thread *)

Lemma lockfree_resize_ok (indeterminate : Z) (cap : nat) :
  (0 < cap)%nat →
  lockfree_ok (T:=T) cap
    (LFStack.nonconcurrent_resize cap (LFStack.new indeterminate))
  ∧ lfstack_elements (T:=T)
      (LFStack.nonconcurrent_resize cap (LFStack.new indeterminate)) = [].
Proof.
  intros Hcap. unfold lockfree_ok, LFStack.nonconcurrent_resize. simpl.
  rewrite length_vector_resize.
  split_and!; try done; try word_arith.
  unfold vector_resize. simpl. by destruct cap; [lia|].
Qed.

Lemma lockfree_push_law (cap : nat) (t : T) (s : LFStack.lfstack T) :
  lockfree_ok cap s →
  Z.of_nat (length (lfstack_elements s)) < lockfree_room cap →
  ∃ s', ops_push t s = Some (Done s')
        ∧ lockfree_ok cap s'
        ∧ lfstack_elements s' = lfstack_elements s ++ [t].
Proof.
  intros (Hp & Hsz & Hlen & Hu & Hev & Hc).
  unfold lfstack_elements, lockfree_room.
  assert (0 ≤ LFStack.read_index (LFStack.index s)) by word_arith.
  rewrite length_take_le by lia. rewrite Z2Nat.id by done. intros Hroom.
  simpl. rewrite push_alone; [|done|done|rewrite Hsz; lia|lia].
  eexists. split; [done|].
  assert (LFStack.increment_index (LFStack.clean_index (LFStack.index s))
          = LFStack.index s + 2) as ->.
  { rewrite clean_index_spec by done. word_arith. }
  assert (LFStack.read_index (LFStack.index s + 2)
          = LFStack.read_index (LFStack.index s) + 1) as Hr
    by word_arith.
  unfold lockfree_ok. simpl. rewrite length_insert, Hr.
  split_and!; try done; try word_arith.
  replace (Z.to_nat (LFStack.read_index (LFStack.index s) + 1))
    with (S (Z.to_nat (LFStack.read_index (LFStack.index s)))) by lia.
  apply take_insert_snoc. lia.
Qed.

End Laws.

(** ** Order of the values and the capacity boundary *)

Section Order.
Context {T : Type} `{ValueInit T}.

Lemma plain_index_elements (cap : nat) (s : Stack.stack T) :
  plain_ok cap s → Stack.index s = Z.of_nat (length (stack_elements s)).
Proof.
  intros (_ & _ & Hlen & Hi & _). unfold stack_elements.
  rewrite length_take_le; lia.
Qed.

Lemma lockfree_count_elements (cap : nat) (s : LFStack.lfstack T) :
  lockfree_ok cap s →
  LFStack.read_index (LFStack.index s)
  = Z.of_nat (length (lfstack_elements s)).
Proof.
  intros (_ & _ & Hlen & Hu & _ & Hc). unfold lfstack_elements.
  assert (0 ≤ LFStack.read_index (LFStack.index s)) by word_arith.
  rewrite length_take_le; lia.
Qed.

(** C5, on the plain and on the guarded stack, within the range of the
    index: after the resize to [cap], pushing [vs] with fewer than
    [cap - 1] and fewer than [2^32] values and then popping as many
    times returns [true] each time and yields [vs] in reverse. *)
Theorem lifo_order (cap : nat) (vs : list T) (r : T) :
  Z.of_nat (length vs) < Z.of_nat cap - 1 →
  Z.of_nat (length vs) < 2 ^ 32 →
  let calls := fmap Push vs ++ replicate (length vs) TryPop in
  let seen := (λ v, (true, v)) <$> reverse vs in
  (∃ r', observe calls r (Stack.resize cap Stack.new)
         = Some (Done (seen, r')))
  ∧ (∃ r', observe calls r (LStack.nonconcurrent_resize cap LStack.new)
           = Some (Done (seen, r'))).
Proof.
  intros Hn H32 calls seen.
  assert (0 < cap)%nat as Hcap by lia.
  split.
  - destruct (plain_resize_ok cap Hcap) as [Hok He].
    apply (run_lifo (plain_ok cap) stack_elements (plain_room cap)
             (plain_push_law cap) (plain_pop_law cap)); [done..|].
    unfold plain_room. lia.
  - destruct (plain_resize_ok cap Hcap) as [Hok He].
    apply (run_lifo (guarded_ok cap)
             (λ s, stack_elements (LStack.wrapped s)) (plain_room cap)
             (guarded_push_law cap) (guarded_pop_law cap)); [done..|].
    unfold plain_room. lia.
Qed.

(** The plain stack accepts [2^32 - 1] values, whatever its capacity;
    the next [push] finds [index = 2^32 - 1] and trips the assertion. *)
Lemma plain_push_at_index_limit
    (k cap : nat) (x : T) (rest : list (op T)) (r : T) :
  Z.of_nat k = 2 ^ 32 - 1 → (k < cap)%nat →
  run_ops (fmap Push (replicate k x) ++ Push x :: rest) r
          (Stack.resize cap Stack.new)
  = Some AssertFailed.
Proof.
  intros Hk Hcap.
  destruct (plain_resize_ok cap) as [Hok He]; [lia|].
  destruct (run_pushes (plain_ok cap) stack_elements (plain_room cap)
              (plain_push_law cap) (replicate k x) r _ Hok)
    as (s1 & Hrun & Hok1 & He1).
  { rewrite He, length_replicate. unfold plain_room. simpl. lia. }
  rewrite run_ops_app, Hrun.
  pose proof (plain_index_elements cap s1 Hok1) as Hi.
  rewrite He1, He, length_app, length_replicate in Hi. simpl in Hi.
  destruct Hok1 as (Hp & Hsz & _).
  cbn [run_ops ops_push stack_ops].
  unfold Stack.push, Stack.push_guard. rewrite Hp, Hsz, Hi, Hk. done.
Qed.

(** On the plain stack [resize] leaves [size] at 0, so after
    [resize(cap)] not only [cap - 1] but [cap] calls of [push] return
    without tripping the assertion, and the one after that does not
    trip it either: it writes past the end of the vector. *)
Lemma plain_accepts_cap_pushes (cap : nat) (vs : list T) (x r : T) :
  (0 < cap)%nat → Z.of_nat cap < 2 ^ 32 - 1 → length vs = cap →
  ∃ s', run_ops (fmap Push vs) r (Stack.resize cap Stack.new)
        = Some (Done ([], r, s'))
        ∧ Stack.index s' = Z.of_nat cap
        ∧ Stack.push_guard s' = true
        ∧ Stack.push x s' = Undefined.
Proof.
  intros Hcap H32 Hlen.
  destruct (plain_resize_ok cap Hcap) as [Hok He].
  destruct (run_pushes (plain_ok cap) stack_elements (plain_room cap)
              (plain_push_law cap) vs r _ Hok)
    as (s1 & Hrun & Hok1 & He1).
  { rewrite He. unfold plain_room. simpl. lia. }
  exists s1. split; [done|].
  pose proof (plain_index_elements cap s1 Hok1) as Hi.
  rewrite He1, He in Hi. simpl in Hi. rewrite Hlen in Hi.
  destruct Hok1 as (Hp & Hsz & Hl & _).
  assert (Stack.push_guard s1 = true) as Hg.
  { unfold Stack.push_guard. rewrite Hsz, Hi. apply Z.ltb_lt.
    change (wrap32 (0 - 1)) with 4294967295. lia. }
  split_and!; [done..|].
  unfold Stack.push. rewrite Hg, Hp. unfold store.
  rewrite lookup_ge_None_2; [done|lia].
Qed.

(** The lock-free stack, for a capacity up to [2^31]: [cap - 1] calls
    of [push] return and the next one trips the assertion. *)
Lemma lockfree_push_past_capacity
    (indeterminate : Z) (cap : nat) (vs : list T) (x r : T) :
  (0 < cap)%nat → Z.of_nat cap ≤ 2 ^ 31 → S (length vs) = cap →
  ∃ s', run_ops (fmap Push vs) r
          (LFStack.nonconcurrent_resize cap (LFStack.new indeterminate))
        = Some (Done ([], r, s'))
        ∧ LFStack.read_index (LFStack.index s') = Z.of_nat cap - 1
        ∧ LFStack.push alone x s' = Some AssertFailed.
Proof.
  intros Hcap H31 Hlen.
  destruct (lockfree_resize_ok indeterminate cap Hcap) as [Hok He].
  destruct (run_pushes (lockfree_ok cap) lfstack_elements
              (lockfree_room cap) (lockfree_push_law cap) vs r _ Hok)
    as (s1 & Hrun & Hok1 & He1).
  { rewrite He. unfold lockfree_room. simpl. word_arith. }
  exists s1. split; [done|].
  pose proof (lockfree_count_elements cap s1 Hok1) as Hc.
  rewrite He1, He in Hc. simpl in Hc.
  destruct Hok1 as (Hp & Hsz & Hl & Hu & _).
  split; [lia|].
  destruct (flag_index_facts _ Hu) as (Hfu & Hfr & _).
  unfold LFStack.push, alone. simpl. rewrite Hp. simpl.
  rewrite cas_success by done. simpl.
  unfold LFStack.load. simpl. rewrite Hfr, Hsz.
  replace (LFStack.read_index (LFStack.index s1)
           <? wrap32 (wrap32 (Z.of_nat cap) - 1)) with false; [done|].
  symmetry. apply Z.ltb_ge. rewrite Hc. word_arith.
Qed.
End Order.

Lemma lifo_order_witness :
  ∃ r', observe [Push 5; Push 6; TryPop; TryPop] (-1)
          (Stack.resize 4 Stack.new)
        = Some (Done ([(true, 6); (true, 5)], r')).
Proof.
  refine (proj1 (lifo_order 4 [5; 6] (-1) _ _)); by vm_compute.
Defined.

(** C5 as stated fails on the plain stack where [size_t] is wider than
    32 bits: capacity [2^32 + 2], [2^32] values.  The [push] number
    [2^32] finds [index = 2^32 - 1], which is not below
    [size - 1 = 4294967295]. *)
Lemma lifo_order_fails_at_2_32 :
  let vs := replicate (Z.to_nat 4294967296) 0 in
  let cap := Z.to_nat 4294967298 in
  Z.of_nat (length vs) < Z.of_nat cap - 1
  ∧ observe (fmap Push vs ++ replicate (length vs) TryPop) (-1)
            (Stack.resize cap Stack.new)
    = Some AssertFailed.
Proof.
  intros vs cap. split.
  - unfold vs, cap. rewrite length_replicate. lia.
  - unfold observe, vs.
    replace (Z.to_nat 4294967296) with (S (Z.to_nat 4294967295)) at 1
      by lia.
    rewrite replicate_S_end, fmap_app, <- app_assoc.
    change (fmap Push [0] ++ ?l) with (Push 0 :: l).
    rewrite plain_push_at_index_limit; [done|lia|unfold cap; lia].
Qed.

(** At count [2^31 - 1] the addition in [increment_index] wraps: the
    loop of [push] completes and its publishing exchange leaves 0. *)
Lemma publish_wraps_at_count_limit (c : list Z) (t : Z) :
  2147483647 < Z.of_nat (length c) →
  let s := {| LFStack.contents := c;
              LFStack._contents := first_element;
              LFStack.index := 4294967295;
              LFStack.size := 4294967295 |} in
  LFStack._contents s ≠ nullptr
  ∧ LFStack.read_index (LFStack.index s) < wrap32 (LFStack.size s - 1)
  ∧ ∃ s', LFStack.run 3 s (LFStack.PublishLoad t)
          = Some (Done (s', LFStack.PushReturn))
          ∧ LFStack.index s' = 0
          ∧ LFStack.read_index (LFStack.index s')
            ≠ LFStack.read_index (LFStack.index s) + 1.
Proof.
  intros Hc s. split_and!; [done|done|].
  eexists. split.
  - apply publish_alone; [by vm_compute|done|done|].
    by change (LFStack.read_index (LFStack.index s)) with 2147483647.
  - change (LFStack.increment_index (LFStack.clean_index 4294967295) = 0
            ∧ LFStack.read_index
                (LFStack.increment_index (LFStack.clean_index 4294967295))
              ≠ LFStack.read_index 4294967295 + 1).
    by vm_compute.
Qed.

(** C2 as stated fails where [count + 1] does not fit the 31 bits of the
    count field.  Capacity [2^32 - 1], count [2^31 - 1], the write flag
    set by the [push] in progress: the storage is set up, the assertion
    [count < size - 1] holds, the loop of [push] writes slot [2^31 - 1]
    and its publishing exchange succeeds, leaving the control word
    at 0. *)
Lemma push_count_plus_1_wraps :
  let s := {| LFStack.contents := replicate (Z.to_nat 4294967295) 0;
              LFStack._contents := first_element;
              LFStack.index := 4294967295;
              LFStack.size := 4294967295 |} in
  LFStack._contents s ≠ nullptr
  ∧ LFStack.read_index (LFStack.index s) < wrap32 (LFStack.size s - 1)
  ∧ ∃ s', LFStack.run 3 s (LFStack.PublishLoad 7)
          = Some (Done (s', LFStack.PushReturn))
          ∧ LFStack.index s' = 0
          ∧ LFStack.read_index (LFStack.index s')
            ≠ LFStack.read_index (LFStack.index s) + 1.
Proof.
  apply (publish_wraps_at_count_limit (replicate (Z.to_nat 4294967295) 0) 7).
  rewrite length_replicate. lia.
Qed.

(** * Further properties *)

(** ** The helpers on the control word *)

(** X1: on a 32-bit word, [clean_index] and [flag_index] change the flag
    bit only and [read_index] ignores it: both keep the count, they leave
    the flag at 0 and at 1, each undoes the other up to the flag, each is
    idempotent, and a word is always one of its two images. *)
Theorem flag_and_count_fields (i : Z) :
  is_u32 i →
  LFStack.read_index (LFStack.clean_index i) = LFStack.read_index i
  ∧ LFStack.read_index (LFStack.flag_index i) = LFStack.read_index i
  ∧ Z.land (LFStack.clean_index i) 1 = 0
  ∧ Z.land (LFStack.flag_index i) 1 = 1
  ∧ LFStack.clean_index (LFStack.flag_index i) = LFStack.clean_index i
  ∧ LFStack.flag_index (LFStack.clean_index i) = LFStack.flag_index i
  ∧ LFStack.clean_index (LFStack.clean_index i) = LFStack.clean_index i
  ∧ LFStack.flag_index (LFStack.flag_index i) = LFStack.flag_index i
  ∧ (i = LFStack.clean_index i ∨ i = LFStack.flag_index i)
  ∧ is_u32 (LFStack.clean_index i) ∧ is_u32 (LFStack.flag_index i)
  ∧ 0 ≤ LFStack.read_index i < 2 ^ 31.
Proof.
  intros Hi.
  destruct (clean_index_facts i Hi) as (Hcu & Hce & Hcr & _).
  destruct (flag_index_facts i Hi) as (Hfu & Hfr & Hfb).
  assert (LFStack.clean_index i = 2 * (i / 2)) as Ec
    by by apply clean_index_spec.
  assert (LFStack.flag_index i = 2 * (i / 2) + 1) as Ef
    by (apply flag_index_spec; apply Hi).
  assert (LFStack.clean_index (LFStack.flag_index i)
          = 2 * (LFStack.flag_index i / 2)) as Ecf
    by by apply clean_index_spec.
  assert (LFStack.clean_index (LFStack.clean_index i)
          = 2 * (LFStack.clean_index i / 2)) as Ecc
    by by apply clean_index_spec.
  assert (LFStack.flag_index (LFStack.clean_index i)
          = 2 * (LFStack.clean_index i / 2) + 1) as Efc
    by (apply flag_index_spec; apply Hcu).
  assert (LFStack.flag_index (LFStack.flag_index i)
          = 2 * (LFStack.flag_index i / 2) + 1) as Eff
    by (apply flag_index_spec; apply Hfu).
  split_and!;
    rewrite ?flag_bit_spec, ?Ecf, ?Ecc, ?Efc, ?Eff, ?Ec, ?Ef;
    word_arith.
Qed.

Lemma flag_and_count_fields_witness :
  LFStack.read_index (LFStack.clean_index 7) = LFStack.read_index 7.
Proof.
  refine (proj1 (flag_and_count_fields 7 _)). by vm_compute.
Defined.

(** X2: on an unflagged word below [2^32 - 2], [decrement_index] undoes
    [increment_index] and the count goes up by one; on an unflagged word
    of at least 2, [increment_index] undoes [decrement_index] and the
    count goes down by one; [is_zero] holds exactly of the words with
    count 0. *)
Theorem increment_decrement_inverse (i : Z) :
  is_u32 i →
  (Z.even i = true → i + 2 < 2 ^ 32 →
   LFStack.decrement_index (LFStack.increment_index i) = Done i
   ∧ LFStack.read_index (LFStack.increment_index i)
     = LFStack.read_index i + 1)
  ∧ (Z.even i = true → 2 ≤ i →
     ∃ j, LFStack.decrement_index i = Done j
          ∧ LFStack.increment_index j = i
          ∧ LFStack.read_index j = LFStack.read_index i - 1)
  ∧ (LFStack.is_zero i = true ↔ LFStack.read_index i = 0).
Proof.
  intros Hi. split_and!.
  - intros Hev Hlt.
    assert (LFStack.increment_index i = i + 2) as -> by word_arith.
    rewrite decrement_index_ge2 by word_arith.
    split; [f_equal; lia|word_arith].
  - intros Hev H2. exists (i - 2).
    rewrite decrement_index_ge2 by done.
    split_and!; [done|word_arith..].
  - unfold LFStack.is_zero. rewrite Z.ltb_lt. word_arith.
Qed.

Lemma increment_decrement_inverse_witness :
  LFStack.decrement_index (LFStack.increment_index 4) = Done 4.
Proof.
  refine (proj1 (proj1 (increment_decrement_inverse 4 _) _ _));
    by vm_compute.
Defined.

(** X3: the assertion [i > 0] of [decrement_index] rejects the word 0
    only.  The word 1 (count 0, flag set) passes it and [i - 2] wraps to
    [2^32 - 1]; from 2 on the result is [i - 2].  [increment_index] wraps
    to 0 or 1 on the two words of count [2^31 - 1]. *)
Theorem decrement_index_edges (i : Z) :
  is_u32 i →
  (LFStack.decrement_index i = AssertFailed ↔ i = 0)
  ∧ (i = 1 → LFStack.decrement_index i = Done 4294967295)
  ∧ (2 ≤ i → LFStack.decrement_index i = Done (i - 2))
  ∧ (LFStack.read_index i = 2 ^ 31 - 1 →
     LFStack.increment_index i = i - 4294967294)
  ∧ (LFStack.read_index i < 2 ^ 31 - 1 →
     LFStack.increment_index i = i + 2).
Proof.
  intros Hi. split_and!.
  - unfold LFStack.decrement_index.
    destruct (0 <? i) eqn:E; simpl; split; try done.
    + intros ->. done.
    + intros _. word_arith.
  - intros ->. done.
  - intros H2. by apply decrement_index_ge2.
  - intros Hc. word_arith.
  - intros Hc. word_arith.
Qed.

Lemma decrement_index_edges_witness :
  LFStack.decrement_index 6 = Done (6 - 2).
Proof.
  refine (proj1 (proj2 (proj2 (decrement_index_edges 6 _))) _);
    by vm_compute.
Defined.

(** ** The lock-free stack under any interleaving, continued *)

Section LockFreeSafety.
Context {T : Type} `{ValueInit T}.
Import LFStack.

Lemma address_of_first_resize (n : nat) :
  address_of_first nullptr (vector_resize n ([] : list T))
  = if decide (n = 0%nat) then nullptr else first_element.
Proof. unfold vector_resize. by destruct n. Qed.

(** A step from a state within the invariants reads and writes inside
    the vector. *)
Lemma step_in_bounds (n : nat) (s : lfstack T) (k : point T) :
  lfstack_ok s → point_ok (size s) k → pop_copy_ok (size s) k →
  size s = wrap32 (Z.of_nat n) → length (contents s) = n →
  _contents s = address_of_first nullptr (vector_resize n ([] : list T)) →
  (_contents s = first_element ∨ before_entry k = true) →
  step s k ≠ Undefined
  ∧ ∀ s' k', step s k = Done (s', k') →
      pop_copy_ok (size s) k'
      ∧ (_contents s = first_element ∨ before_entry k' = true).
Proof.
  intros [Hu Hb] Hk Hc Hsz Hlen Hptr Hin. unfold bounded in Hb.
  rewrite address_of_first_resize in Hptr.
  destruct k; simpl in *.
  - split; [done|]. intros ? ? [= <- <-]. done.
  - destruct (_contents s) eqn:Hp; simpl; (split; [done|]); [done|].
    intros ? ? [= <- <-]. split; [done|by left].
  - split; [done|]. intros ? ? [= <- <-].
    destruct Hin as [?|?]; [|done]. split; [done|by left].
  - unfold compare_exchange_strong.
    destruct (index s =? index_copy); (split; [done|]);
      intros ? ? [= <- <-]; (destruct Hin as [?|?]; [|done]);
      (split; [done|by left]).
  - split; [done|]. intros ? ? [= <- <-].
    destruct Hin as [?|?]; [|done]. split; [done|by left].
  - destruct Hin as [Hp|]; [|done].
    destruct (read_index index_copy <? wrap32 (size s - 1)) eqn:Ha;
      simpl; [|done].
    destruct (clean_index_facts _ Hk) as (_ & _ & Hcr & _).
    rewrite Hp, Hcr, store_in_range.
    + simpl. split; [done|]. intros ? ? [= <- <-]. split; [done|by left].
    + rewrite Hp in Hptr. destruct (decide (n = 0%nat)); [done|].
      rewrite Hlen. rewrite Hsz in Ha. word_arith.
  - unfold compare_exchange_strong.
    destruct (index s =? index_copy); (split; [done|]);
      intros ? ? [= <- <-]; (destruct Hin as [?|?]; [|done]);
      (split; [done|by left]).
  - split; [done|]. intros ? ? [= <- <-]. done.
  - destruct (_contents s) eqn:Hp; simpl; (split; [done|]); [done|].
    intros ? ? [= <- <-]. split; [done|by left].
  - split; [done|]. intros ? ? [= <- <-].
    destruct Hin as [?|?]; [|done]. split; [|by left].
    simpl. unfold load.
    destruct (clean_index_facts _ Hu) as (_ & _ & -> & _). done.
  - destruct Hin as [Hp|]; [|done].
    destruct (is_zero index_copy) eqn:Hz.
    { split; [done|]. intros ? ? [= <- <-]. split; [done|by left]. }
    destruct Hk as [Hic Hev].
    assert (2 ≤ index_copy) by word_arith.
    rewrite decrement_index_ge2 by done. simpl.
    destruct (lookup_lt_is_Some_2 (contents s)
                (Z.to_nat (read_index (index_copy - 2)))) as [v Hv].
    { rewrite Hp in Hptr. destruct (decide (n = 0%nat)); [done|].
      rewrite Hlen. rewrite Hsz in Hc.
      assert (0 ≤ read_index (index_copy - 2) < Z.of_nat n)
        by word_arith.
      lia. }
    rewrite Hp, (fetch_in_range _ _ v Hv). simpl.
    split; [done|]. intros ? ? [= <- <-]. split; [done|by left].
  - destruct Hk as (Hic & Hev & H2).
    rewrite decrement_index_ge2 by done. simpl.
    unfold compare_exchange_strong.
    destruct (index s =? index_copy); (split; [done|]);
      intros ? ? [= <- <-]; (destruct Hin as [?|?]; [|done]);
      (split; [done|by left]).
  - split; [done|]. intros ? ? [= <- <-]. done.
Qed.

Lemma boot_storage_ok (indeterminate : Z) (n nthreads : nat) :
  storage_ok (T:=T) n (boot indeterminate n nthreads).
Proof.
  unfold storage_ok, boot. simpl. rewrite length_vector_resize.
  split_and!; [done|done| |].
  - right. apply Forall_replicate. done.
  - apply Forall_replicate. done.
Qed.

Lemma Forall_or_insert (P : point T → Prop) (Q : Prop)
    (l : list (point T)) (i : nat) (k : point T) :
  Q ∨ Forall P l → Q ∨ P k → Q ∨ Forall P (<[i := k]> l).
Proof.
  intros [HQ|Hl] [HQ'|Hk]; [by left..|]. right. by apply Forall_insert.
Qed.

Lemma fire_in_bounds (n : nat) (e : event T) (σ : system T) :
  system_ok n σ → storage_ok n σ →
  fire e σ ≠ Undefined
  ∧ ∀ σ', fire e σ = Done σ' → storage_ok n σ'.
Proof.
  intros (Hs & Hsz & Hth) (Hlen & Hptr & Hin & Hc).
  destruct e as [tid|tid c]; simpl.
  - destruct (threads σ !! tid) as [k|] eqn:Hk.
    2: { split; [done|]. intros ? [= <-]. done. }
    assert (_contents (shared σ) = first_element ∨ before_entry k = true)
      as Hin_k.
    { destruct Hin as [?|Hall]; [by left|right].
      apply (Forall_lookup_1 _ _ _ _ Hall Hk). }
    destruct (step_in_bounds n (shared σ) k Hs
                (Forall_lookup_1 _ _ _ _ Hth Hk)
                (Forall_lookup_1 _ _ _ _ Hc Hk) Hsz Hlen Hptr Hin_k)
      as [Hne Hnext].
    destruct (step (shared σ) k) as [[s' k']| |] eqn:Hstep; [|done..].
    simpl. split; [done|]. intros ? [= <-].
    destruct (step_frame _ _ _ _ Hstep) as (Hsize & Hp & Hl).
    destruct (Hnext s' k' eq_refl) as [Hc' Hin'].
    unfold storage_ok. simpl. rewrite Hsize, Hp, Hl.
    split_and!; [done..| |by apply Forall_insert].
    by apply Forall_or_insert.
  - destruct (threads σ !! tid) as [k|]; [|split; [done|by intros ? [= <-]]].
    destruct (returned k); (split; [done|]); intros ? [= <-]; [|done].
    unfold storage_ok. simpl.
    split_and!; [done..| |apply Forall_insert; [done|by destruct c]].
    apply Forall_or_insert; [done|]. right. by destruct c.
Qed.

Lemma play_in_bounds (n : nat) (es : list (event T)) (σ : system T) :
  system_ok n σ → storage_ok n σ →
  play es σ ≠ Undefined
  ∧ ∀ σ', play es σ = Done σ' → storage_ok n σ'.
Proof.
  revert σ. induction es as [|e es IH]; simpl; intros σ Hok Hst.
  - split; [done|]. by intros ? [= <-].
  - destruct (fire_in_bounds n e σ Hok Hst) as [Hne Hnext].
    destruct (fire e σ) as [σ1| |] eqn:Hfire; [|done..]. simpl.
    apply IH; [by eapply fire_ok|by apply Hnext].
Qed.

(** X4: whatever the capacity, the number of threads and the
    interleaving of their steps, no [push] writes and no [try_pop] reads
    a slot outside the vector, and none goes through a null
    [_contents]: a run ends in a failed assertion or not at all, never in
    an undefined access. *)
Theorem lockfree_never_outside_vector
    (indeterminate : Z) (n nthreads : nat) (es : list (event T)) :
  play es (boot indeterminate n nthreads) ≠ Undefined.
Proof.
  apply (play_in_bounds n); [apply boot_ok|apply boot_storage_ok].
Qed.

(** X5: what [nonconcurrent_resize(n)] sets up stays: in every state
    reached afterwards the vector has [n] slots, [size] is [n] narrowed to
    32 bits, [_contents] is null exactly when [n] is 0, the control word
    is a 32-bit value, and no thread has come or gone. *)
Theorem lockfree_storage_fixed
    (indeterminate : Z) (n nthreads : nat)
    (es : list (event T)) (σ : system T) :
  play es (boot indeterminate n nthreads) = Done σ →
  length (contents (shared σ)) = n
  ∧ size (shared σ) = wrap32 (Z.of_nat n)
  ∧ (_contents (shared σ) = nullptr ↔ n = 0%nat)
  ∧ is_u32 (index (shared σ))
  ∧ length (threads σ) = nthreads.
Proof.
  intros Hplay.
  destruct (play_ok n es _ _ (boot_ok indeterminate n nthreads) Hplay)
    as ([Hu _] & Hsz & _).
  destruct (play_in_bounds n es _ (boot_ok indeterminate n nthreads)
              (boot_storage_ok indeterminate n nthreads)) as [_ Hst].
  destruct (Hst σ Hplay) as (Hlen & Hptr & _).
  rewrite address_of_first_resize in Hptr.
  split_and!; [done|done| |done|].
  - rewrite Hptr. by destruct (decide (n = 0%nat)).
  - clear -Hplay. revert Hplay.
    assert (length (threads (boot (T:=T) indeterminate n nthreads))
            = nthreads) as Hl by apply length_replicate.
    revert Hl. generalize (boot (T:=T) indeterminate n nthreads).
    induction es as [|e es IH]; simpl; intros σ0 Hl.
    + by intros [= <-].
    + destruct (fire e σ0) as [σ1| |] eqn:Hfire; [|done..]. simpl.
      apply IH. revert Hfire. destruct e as [tid|tid c]; simpl.
      * destruct (threads σ0 !! tid); [|by intros [= <-]].
        destruct (step _ _); [|done..]. simpl. intros [= <-]. simpl.
        by rewrite length_insert.
      * destruct (threads σ0 !! tid) as [k|]; [|by intros [= <-]].
        destruct (returned k); intros [= <-]; [|done]. simpl.
        by rewrite length_insert.
Qed.
End LockFreeSafety.

Lemma lockfree_storage_fixed_witness :
  length (LFStack.contents
            {| LFStack.contents := [7; 0];
               LFStack._contents := first_element;
               LFStack.index := 2; LFStack.size := 2 |}) = 2%nat.
Proof.
  refine (proj1 (lockfree_storage_fixed 99 2 1
    (LFStack.Call 0 (LFStack.CallPush 7) :: replicate 6 (LFStack.Step 0))
    {| LFStack.shared :=
         {| LFStack.contents := [7; 0];
            LFStack._contents := first_element;
            LFStack.index := 2; LFStack.size := 2 |};
       LFStack.threads := [LFStack.PushReturn] |} _)).
  reflexivity.
Defined.

(** ** The write flag *)

Section WriteFlag.
Context {T : Type} `{ValueInit T}.
Import LFStack.

Lemma odd_not_even (i : Z) : Z.odd i = true → Z.even i = true → False.
Proof. rewrite <- Z.negb_even. by destruct (Z.even i). Qed.

Lemma Exists_insert_other (P : point T → Prop) (l : list (point T))
    (i : nat) (k k' : point T) :
  l !! i = Some k → (P k → P k') → Exists P l → Exists P (<[i := k']> l).
Proof.
  intros Hi Hk. rewrite !Exists_exists.
  intros (x & Hx & HP). apply list_elem_of_lookup in Hx as [j Hj].
  destruct (decide (i = j)) as [->|Hne].
  - exists k'. split.
    + apply list_elem_of_lookup. exists j.
      apply list_lookup_insert_eq. by eapply lookup_lt_Some.
    + apply Hk. congruence.
  - exists x. split; [|done].
    apply list_elem_of_lookup. exists j. by rewrite list_lookup_insert_ne.
Qed.

Lemma Exists_insert_here (P : point T → Prop) (l : list (point T))
    (i : nat) (k k' : point T) :
  l !! i = Some k → P k' → Exists P (<[i := k']> l).
Proof.
  intros Hi Hk'. apply Exists_exists. exists k'. split; [|done].
  apply list_elem_of_lookup. exists i.
  apply list_lookup_insert_eq. by eapply lookup_lt_Some.
Qed.

Lemma fire_flag_owned (n : nat) (e : event T) (σ σ' : system T) :
  system_ok n σ → flag_owned σ → fire e σ = Done σ' → flag_owned σ'.
Proof.
  intros (Hs & Hsz & Hth) Hflag. unfold flag_owned in *.
  destruct e as [tid|tid c]; simpl.
  - destruct (threads σ !! tid) as [k|] eqn:Hk; [|by intros [= <-]].
    pose proof (Forall_lookup_1 _ _ _ _ Hth Hk) as Hpk.
    destruct Hs as [Hu _].
    destruct k; simpl in *;
      try (intros [= <-]; simpl; intros Hodd;
           by apply (Exists_insert_other _ _ _ _ _ Hk); [|apply Hflag]).
    + destruct (assert _); simpl; [|done..]. intros [= <-]. simpl.
      intros Hodd.
      by apply (Exists_insert_other _ _ _ _ _ Hk); [|apply Hflag].
    + destruct (decide (index (shared σ) = index_copy)) as [E|E].
      * rewrite cas_success by done. intros [= <-]. simpl. intros _.
        by apply (Exists_insert_here _ _ _ _ _ Hk).
      * rewrite cas_failure by done. intros [= <-]. simpl. intros Hodd.
        by apply (Exists_insert_other _ _ _ _ _ Hk); [|apply Hflag].
    + destruct (assert _); simpl; [|done..].
      destruct (store _ _ _ _); simpl; [|done..].
      intros [= <-]. simpl. intros Hodd.
      by apply (Exists_insert_other _ _ _ _ _ Hk); [|apply Hflag].
    + destruct Hpk as [Hic _].
      destruct (decide (index (shared σ) = index_copy)) as [E|E].
      * rewrite cas_success by done. intros [= <-]. simpl. intros Hodd.
        exfalso. apply (odd_not_even _ Hodd).
        rewrite clean_index_spec by done. word_arith.
      * rewrite cas_failure by done. intros [= <-]. simpl. intros Hodd.
        by apply (Exists_insert_other _ _ _ _ _ Hk); [|apply Hflag].
    + destruct (assert _); simpl; [|done..]. intros [= <-]. simpl.
      intros Hodd.
      by apply (Exists_insert_other _ _ _ _ _ Hk); [|apply Hflag].
    + destruct (is_zero index_copy).
      * intros [= <-]. simpl. intros Hodd.
        by apply (Exists_insert_other _ _ _ _ _ Hk); [|apply Hflag].
      * destruct (decrement_index _); simpl; [|done..].
        destruct (fetch _ _ _); simpl; [|done..].
        intros [= <-]. simpl. intros Hodd.
        by apply (Exists_insert_other _ _ _ _ _ Hk); [|apply Hflag].
    + destruct Hpk as (Hic & Hev & H2).
      rewrite decrement_index_ge2 by done. simpl.
      destruct (decide (index (shared σ) = index_copy)) as [E|E].
      * rewrite cas_success by done. intros [= <-]. simpl. intros Hodd.
        exfalso. apply (odd_not_even _ Hodd). word_arith.
      * rewrite cas_failure by done. intros [= <-]. simpl. intros Hodd.
        by apply (Exists_insert_other _ _ _ _ _ Hk); [|apply Hflag].
  - destruct (threads σ !! tid) as [k|] eqn:Hk; [|by intros [= <-]].
    destruct (returned k) eqn:Hr; intros [= <-]; [|done]. simpl.
    intros Hodd. apply (Exists_insert_other _ _ _ _ _ Hk); [|by apply Hflag].
    by destruct k.
Qed.

Lemma play_flag_owned (n : nat) (es : list (event T)) (σ σ' : system T) :
  system_ok n σ → flag_owned σ → play es σ = Done σ' → flag_owned σ'.
Proof.
  revert σ. induction es as [|e es IH]; simpl; intros σ Hok Hflag.
  - by intros [= <-].
  - destruct (fire e σ) as [σ1| |] eqn:Hfire; [|done..]. simpl.
    apply IH; [by eapply fire_ok|by eapply fire_flag_owned].
Qed.

(** X6: the write flag is set only while a [push] is between the
    exchange of [acquire_write_rights] and its publishing exchange: in
    every state reached by any interleaving in which bit 0 of the control
    word is 1, some thread stands at one of the three points of that
    stretch. *)
Theorem write_flag_set_only_during_push
    (indeterminate : Z) (n nthreads : nat)
    (es : list (event T)) (σ : system T) :
  play es (boot indeterminate n nthreads) = Done σ →
  Z.land (index (shared σ)) 1 = 1 →
  ∃ tid k, threads σ !! tid = Some k ∧ publishing k = true.
Proof.
  intros Hplay Hbit.
  assert (flag_owned (boot (T:=T) indeterminate n nthreads)) as Hboot.
  { unfold flag_owned, boot. simpl. done. }
  pose proof (play_flag_owned n es _ _
                (boot_ok indeterminate n nthreads) Hboot Hplay) as Hflag.
  assert (Z.odd (index (shared σ)) = true) as Hodd.
  { rewrite flag_bit_spec in Hbit. rewrite Zodd_mod. by apply Z.eqb_eq. }
  apply Hflag, Exists_exists in Hodd as (k & Hin & Hk).
  apply list_elem_of_lookup in Hin as [tid Htid]. by exists tid, k.
Qed.

(** X7: [try_pop] waits for a [push] in flight.  In every state reached
    by any interleaving in which the write flag is set, a step of a thread
    inside [try_pop] leaves the stack as it is, and the thread does not
    return [true] by it: its exchange expects a word with the flag at
    0. *)
Theorem try_pop_stalls_while_flag_set
    (indeterminate : Z) (n nthreads : nat)
    (es : list (event T)) (σ σ' : system T) (tid : nat) (k : point T) :
  play es (boot indeterminate n nthreads) = Done σ →
  Z.land (index (shared σ)) 1 = 1 →
  threads σ !! tid = Some k → popping k = true →
  fire (Step tid) σ = Done σ' →
  shared σ' = shared σ
  ∧ ∀ v, threads σ' !! tid ≠ Some (PopReturn true v).
Proof.
  intros Hplay Hbit Hk Hpop.
  destruct (play_ok n es _ _ (boot_ok indeterminate n nthreads) Hplay)
    as (_ & _ & Hth).
  pose proof (Forall_lookup_1 _ _ _ _ Hth Hk) as Hpk.
  assert (tid < length (threads σ))%nat as Hlt by by eapply lookup_lt_Some.
  rewrite flag_bit_spec in Hbit.
  simpl. rewrite Hk.
  destruct k; try done; simpl in *.
  - destruct (assert _); simpl; [|done..]. intros [= <-]. simpl.
    split; [done|]. intros v. by rewrite list_lookup_insert_eq.
  - intros [= <-]. simpl.
    split; [done|]. intros v. by rewrite list_lookup_insert_eq.
  - destruct (is_zero index_copy).
    + intros [= <-]. simpl.
      split; [done|]. intros v. by rewrite list_lookup_insert_eq.
    + destruct (decrement_index _); simpl; [|done..].
      destruct (fetch _ _ _); simpl; [|done..]. intros [= <-]. simpl.
      split; [done|]. intros v. by rewrite list_lookup_insert_eq.
  - destruct Hpk as (Hic & Hev & H2).
    rewrite decrement_index_ge2 by done. simpl.
    rewrite cas_failure by (intros E; rewrite E in Hbit; word_arith).
    intros [= <-]. simpl.
    split; [done|]. intros v. by rewrite list_lookup_insert_eq.
Qed.
End WriteFlag.

Lemma write_flag_set_only_during_push_witness :
  ∃ tid k,
    [LFStack.PublishLoad 8; LFStack.Idle] !! tid = Some k
    ∧ publishing k = true.
Proof.
  refine (write_flag_set_only_during_push 0 3 2
    (LFStack.Call 0 (LFStack.CallPush 7) :: replicate 6 (LFStack.Step 0)
     ++ LFStack.Call 0 (LFStack.CallPush 8) :: replicate 3 (LFStack.Step 0))
    {| LFStack.shared :=
         {| LFStack.contents := [7; 0; 0];
            LFStack._contents := first_element;
            LFStack.index := 3; LFStack.size := 3 |};
       LFStack.threads := [LFStack.PublishLoad 8; LFStack.Idle] |} _ _);
    reflexivity.
Defined.

Lemma try_pop_stalls_while_flag_set_witness :
  let flagged :=
    {| LFStack.contents := [7; 0; 0];
       LFStack._contents := first_element;
       LFStack.index := 3; LFStack.size := 3 |} in
  flagged = flagged
  ∧ ∀ v, [LFStack.PublishLoad 8; LFStack.PopLoad 7] !! 1%nat
         ≠ Some (LFStack.PopReturn true v).
Proof.
  intros flagged.
  refine (try_pop_stalls_while_flag_set 0 3 2
    (LFStack.Call 0 (LFStack.CallPush 7) :: replicate 6 (LFStack.Step 0)
     ++ LFStack.Call 0 (LFStack.CallPush 8) :: replicate 3 (LFStack.Step 0)
     ++ LFStack.Call 1 (LFStack.CallTryPop (-1))
     :: replicate 3 (LFStack.Step 1))
    {| LFStack.shared := flagged;
       LFStack.threads := [LFStack.PublishLoad 8; LFStack.PopCas 7 2] |}
    {| LFStack.shared := flagged;
       LFStack.threads := [LFStack.PublishLoad 8; LFStack.PopLoad 7] |}
    1%nat (LFStack.PopCas 7 2) _ _ _ _ _); reflexivity.
Defined.

(** ** Two interleavings that lose a value *)

Section Races.
Context {T : Type} `{ValueInit T}.
Import LFStack.

(** X8: the write flag does not keep two [push] apart, because the
    exchange of [acquire_write_rights] also succeeds on a word whose flag
    is already set.  Threads 0 and 1 push [a] and [b] on an empty stack of
    capacity 3: both acquire, both load the same word and write slot 0,
    thread 0 publishes, thread 1 fails to, goes round its loop and
    writes slot 1.  Both calls return; the stack holds [b] twice and [a]
    is gone. *)
Theorem two_pushes_lose_the_first (indeterminate : Z) (a b : T) :
  let es :=
    [Call 0 (CallPush a); Call 1 (CallPush b);
     Step 0; Step 0; Step 0;      (* thread 0 has set the flag *)
     Step 1; Step 1; Step 1;      (* so has thread 1 *)
     Step 0; Step 1;              (* both load the word 1 *)
     Step 0; Step 1;              (* slot 0 := a, then slot 0 := b *)
     Step 0;                      (* thread 0 publishes count 1 *)
     Step 1;                      (* the exchange of thread 1 fails *)
     Step 1; Step 1; Step 1] in   (* second round: slot 1 := b *)
  play es (boot indeterminate 3 2)
  = Done {| shared :=
              {| contents := [b; b; value_init];
                 _contents := first_element;
                 index := 4; size := 3 |};
            threads := [PushReturn; PushReturn] |}
  ∧ play (take 8 es) (boot indeterminate 3 2)
    = Done {| shared :=
                {| contents := [value_init; value_init; value_init];
                   _contents := first_element;
                   index := 1; size := 3 |};
              threads := [PublishLoad a; PublishLoad b] |}.
Proof. split; reflexivity. Qed.

(** X9: a [try_pop] that was overtaken returns a value that was popped
    already, and a value pushed in between disappears.  The stack holds
    [v].  Thread 1 calls [try_pop], loads the word (count 1) and reads
    [v]; thread 2 pops [v]; thread 0 pushes [x], which brings the control
    word back to what thread 1 loaded; the exchange of thread 1 succeeds.
    Both [try_pop] return [true] with [v], and the stack is empty. *)
Theorem overtaken_try_pop_returns_popped_value
    (indeterminate : Z) (v x d1 d2 : T) :
  let setup := Call 0 (CallPush v) :: replicate 6 (Step 0) in
  let es :=
    Call 1 (CallTryPop d1) :: replicate 3 (Step 1)
    ++ Call 2 (CallTryPop d2) :: replicate 4 (Step 2)
    ++ Call 0 (CallPush x) :: replicate 6 (Step 0)
    ++ [Step 1] in
  play (setup ++ es) (boot indeterminate 3 3)
  = Done {| shared :=
              {| contents := [x; value_init; value_init];
                 _contents := first_element;
                 index := 0; size := 3 |};
            threads := [PushReturn; PopReturn true v; PopReturn true v] |}.
Proof. reflexivity. Qed.
End Races.

(** ** The slot kept free *)

Section Headroom.
Context {T : Type} `{ValueInit T}.
Import LFStack.

(** The only step that changes the vector is the store of [push], and
    it comes after the assertion. *)
Lemma step_contents (s s' : lfstack T) (k k' : point T) :
  step s k = Done (s', k') →
  contents s' = contents s
  ∨ ∃ t index_copy,
      k = PublishWrite t index_copy
      ∧ read_index index_copy < wrap32 (size s - 1)
      ∧ contents s'
        = <[Z.to_nat (read_index (clean_index index_copy)) := t]>
            (contents s).
Proof.
  destruct k; simpl; unfold compare_exchange_strong;
    try (repeat match goal with
         | |- context [assert ?b] => destruct b; simpl
         | |- context [is_zero ?i] => destruct (is_zero i); simpl
         | |- context [decrement_index ?i] =>
             destruct (decrement_index i); simpl
         | |- context [?a =? ?b] => destruct (a =? b); simpl
         | |- context [fetch ?p ?c ?i] => destruct (fetch p c i); simpl
         end;
         intros E; try discriminate; injection E as <- <-; by left).
  destruct (read_index index_copy <? wrap32 (size s - 1)) eqn:Ha;
    simpl; [|done].
  unfold store. destruct (_contents s); simpl; [done|].
  destruct (contents s !! _); simpl; [|done].
  intros [= <- <-]. right. exists t, index_copy.
  split_and!; [done|by apply Z.ltb_lt|done].
Qed.

Lemma fire_keeps_last_slot (n : nat) (e : event T) (σ σ' : system T)
    (v : T) :
  (0 < n)%nat → Z.of_nat n < 2 ^ 32 →
  system_ok n σ → fire e σ = Done σ' →
  contents (shared σ) !! (n - 1)%nat = Some v →
  contents (shared σ') !! (n - 1)%nat = Some v.
Proof.
  intros Hn H32 (Hs & Hsz & Hth) Hfire Hv.
  destruct e as [tid|tid c]; simpl in Hfire.
  - destruct (threads σ !! tid) as [k|] eqn:Hk; [|by injection Hfire as <-].
    destruct (step (shared σ) k) as [[s' k']| |] eqn:Hstep; [|done..].
    simpl in Hfire. injection Hfire as <-. simpl.
    destruct (step_contents _ _ _ _ Hstep)
      as [->|(t & index_copy & -> & Ha & ->)]; [done|].
    pose proof (Forall_lookup_1 _ _ _ _ Hth Hk) as Hic. simpl in Hic.
    destruct (clean_index_facts _ Hic) as (_ & _ & Hcr & _).
    rewrite list_lookup_insert_ne; [done|].
    rewrite Hcr. rewrite Hsz in Ha.
    assert (0 ≤ read_index index_copy < Z.of_nat n - 1) by word_arith.
    lia.
  - destruct (threads σ !! tid) as [k|]; [|by injection Hfire as <-].
    destruct (returned k); by injection Hfire as <-.
Qed.

(** X10: [push] keeps the last slot of the vector free.  For a capacity
    [n] with [0 < n < 2^32], in every state reached by any interleaving
    after [nonconcurrent_resize(n)], slot [n - 1] still holds the
    value-initialised element the resize put there: the assertion
    [read_index(index_copy) < size - 1] stops every [push] that would
    write it. *)
Theorem last_slot_never_written
    (indeterminate : Z) (n nthreads : nat)
    (es : list (event T)) (σ : system T) :
  (0 < n)%nat → Z.of_nat n < 2 ^ 32 →
  play es (boot indeterminate n nthreads) = Done σ →
  contents (shared σ) !! (n - 1)%nat = Some value_init.
Proof.
  intros Hn H32.
  assert (contents (shared (boot (T:=T) indeterminate n nthreads))
          !! (n - 1)%nat = Some value_init) as Hv.
  { unfold boot. simpl. rewrite vector_resize_nil.
    apply lookup_replicate_2. lia. }
  revert Hv. generalize (boot_ok (T:=T) indeterminate n nthreads).
  generalize (boot (T:=T) indeterminate n nthreads).
  induction es as [|e es IH]; simpl; intros σ0 Hok Hv.
  - by intros [= <-].
  - destruct (fire e σ0) as [σ1| |] eqn:Hfire; [|done..]. simpl.
    apply IH; [by eapply fire_ok|by eapply fire_keeps_last_slot].
Qed.
End Headroom.

Lemma last_slot_never_written_witness :
  LFStack.contents
    {| LFStack.contents := [7; 0];
       LFStack._contents := first_element;
       LFStack.index := 2; LFStack.size := 2 |} !! (2 - 1)%nat
  = Some value_init.
Proof.
  refine (last_slot_never_written 99 2 1
    (LFStack.Call 0 (LFStack.CallPush 7) :: replicate 6 (LFStack.Step 0))
    {| LFStack.shared :=
         {| LFStack.contents := [7; 0];
            LFStack._contents := first_element;
            LFStack.index := 2; LFStack.size := 2 |};
       LFStack.threads := [LFStack.PushReturn] |} _ _ _).
  - lia.
  - by vm_compute.
  - reflexivity.
Defined.

(** ** The capacity boundary of the plain stack, for every capacity *)

Section Capacity.
Context {T : Type} `{ValueInit T}.

(** X11: the plain stack has no working capacity check.  For every
    capacity below [2^32 - 1], after [resize(cap)] all of [cap] calls of
    [push] return, filling the vector, and the next one passes both
    assertions and writes past its end. *)
Theorem plain_capacity_unchecked (cap : nat) (vs : list T) (x r : T) :
  (0 < cap)%nat → Z.of_nat cap < 2 ^ 32 - 1 → length vs = cap →
  ∃ s', run_ops (fmap Push vs) r (Stack.resize cap Stack.new)
        = Some (Done ([], r, s'))
        ∧ stack_elements s' = vs
        ∧ Stack.contents s' = vs
        ∧ Stack.push_guard s' = true
        ∧ Stack.push x s' = Undefined.
Proof.
  intros Hcap H32 Hlen.
  destruct (plain_resize_ok cap Hcap) as [Hok He].
  destruct (run_pushes (plain_ok cap) stack_elements (plain_room cap)
              (plain_push_law cap) vs r _ Hok)
    as (s1 & Hrun & Hok1 & He1).
  { rewrite He. unfold plain_room. simpl. lia. }
  destruct (plain_accepts_cap_pushes cap vs x r Hcap H32 Hlen)
    as (s2 & Hrun2 & Hi & Hg & Hfail).
  rewrite Hrun in Hrun2. injection Hrun2 as <-.
  rewrite He in He1. simpl in He1.
  exists s1. split_and!; [done..| |done|done].
  destruct Hok1 as (_ & _ & Hl & _).
  unfold stack_elements in He1. rewrite Hi in He1.
  rewrite <- He1, Nat2Z.id. symmetry. apply take_ge. lia.
Qed.
End Capacity.

Lemma plain_capacity_unchecked_witness :
  ∃ s', run_ops [Push 1; Push 2] (-1) (Stack.resize 2 Stack.new)
        = Some (Done ([], -1, s'))
        ∧ stack_elements s' = [1; 2]
        ∧ Stack.contents s' = [1; 2]
        ∧ Stack.push_guard s' = true
        ∧ Stack.push 3 s' = Undefined.
Proof.
  refine (plain_capacity_unchecked 2 [1; 2] 3 (-1) _ _ eq_refl).
  - lia.
  - by vm_compute.
Defined.

(** ** Any sequence of calls by one thread *)

Section AsList.
Context {T S : Type} `{StackOps T S}.
Variables (ok : S → Prop) (elements : S → list T) (room : Z).

Hypothesis push_law : ∀ (t : T) (s : S),
  ok s → Z.of_nat (length (elements s)) < room →
  ∃ s', ops_push t s = Some (Done s')
        ∧ ok s' ∧ elements s' = elements s ++ [t].

Hypothesis pop_law : ∀ (r : T) (s : S) (l : list T) (v : T),
  ok s → elements s = l ++ [v] →
  ∃ s', ops_try_pop r s = Some (Done (true, v, s'))
        ∧ ok s' ∧ elements s' = l.

Hypothesis empty_law : ∀ (r : T) (s : S),
  ok s → elements s = [] → ops_try_pop r s = Some (Done (false, r, s)).

Lemma run_as_list (ops : list (op T)) (r : T) (s : S) (l : list T) :
  ok s → elements s = reverse l →
  fits room ops (Z.of_nat (length l)) = true →
  ∃ s', run_ops ops r s
        = Some (Done ((list_run ops r l).1.1, (list_run ops r l).1.2, s'))
        ∧ ok s' ∧ elements s' = reverse (list_run ops r l).2.
Proof.
  revert r s l. induction ops as [|[t|] ops IH]; intros r s l Hok He; simpl.
  - intros _. by exists s.
  - intros [Hroom Hfits]%andb_true_iff. apply Z.ltb_lt in Hroom.
    destruct (push_law t s Hok) as (s1 & -> & Hok1 & He1).
    { by rewrite He, length_reverse. }
    apply (IH r s1 (t :: l) Hok1).
    + by rewrite He1, He, reverse_cons.
    + simpl length. by rewrite Nat2Z.inj_succ, <- Z.add_1_r.
  - destruct l as [|v l0]; intros Hfits.
    + rewrite (empty_law r s Hok He).
      destruct (IH r s [] Hok He Hfits) as (s' & -> & Hok' & He').
      exists s'. by destruct (list_run ops r []) as [[seen r'] l'].
    + rewrite reverse_cons in He.
      destruct (pop_law r s _ v Hok He) as (s1 & -> & Hok1 & He1).
      destruct (IH v s1 l0 Hok1 He1) as (s' & -> & Hok' & He').
      { simpl length in Hfits.
        by replace (Z.max 0 (Z.of_nat (Datatypes.S (length l0)) - 1))
          with (Z.of_nat (length l0)) in Hfits by lia. }
      exists s'. by destruct (list_run ops v l0) as [[seen r'] l'].
Qed.
End AsList.

Section ThreeStacksAsList.
Context {T : Type} `{ValueInit T}.

Lemma plain_empty_law (cap : nat) (r : T) (s : Stack.stack T) :
  plain_ok cap s → stack_elements s = [] →
  ops_try_pop r s = Some (Done (false, r, s)).
Proof.
  intros Hok He. pose proof (plain_index_elements cap s Hok) as Hi.
  rewrite He in Hi. simpl. unfold Stack.try_pop. by rewrite Hi.
Qed.

Lemma guarded_empty_law (cap : nat) (r : T) (s : LStack.lstack T) :
  guarded_ok cap s → stack_elements (LStack.wrapped s) = [] →
  ops_try_pop r s = Some (Done (false, r, s)).
Proof.
  destruct s as [p m]. intros [Hm Hok] He. simpl in *. subst m.
  pose proof (plain_empty_law cap r p Hok He) as Hp.
  simpl in Hp. injection Hp as Hp.
  change {| LStack.wrapped := p; LStack.mx := false |} with (guarded p).
  by rewrite guarded_try_pop, Hp.
Qed.

(** X12: used by one thread, the plain and the guarded stack behave as a
    list.  For every sequence of [push] and [try_pop] after the resize
    during which no [push] finds [cap] (or [2^32 - 1], if that is less)
    elements on the stack, every call returns, and the flags and values
    seen are those of the list: [try_pop] takes the value pushed last
    and not yet popped, or returns [false] and leaves the argument when
    there is none. *)
Theorem one_thread_behaves_as_list
    (cap : nat) (ops : list (op T)) (r : T) :
  (0 < cap)%nat →
  fits (plain_room cap) ops 0 = true →
  observe ops r (Stack.resize cap Stack.new)
  = Some (Done (list_run ops r []).1)
  ∧ observe ops r (LStack.nonconcurrent_resize cap LStack.new)
    = Some (Done (list_run ops r []).1).
Proof.
  intros Hcap Hfits.
  assert (∀ res : list (bool * T) * T * list T,
            (res.1.1, res.1.2) = res.1) as Hpair by by intros [[? ?] ?].
  split.
  - destruct (plain_resize_ok cap Hcap) as [Hok He].
    destruct (run_as_list (plain_ok cap) stack_elements (plain_room cap)
                (plain_push_law cap) (plain_pop_law cap)
                (plain_empty_law cap) ops r _ [] Hok He Hfits)
      as (s' & Hrun & _).
    unfold observe. by rewrite Hrun, Hpair.
  - destruct (plain_resize_ok cap Hcap) as [Hok He].
    destruct (run_as_list (guarded_ok cap)
                (λ s, stack_elements (LStack.wrapped s)) (plain_room cap)
                (guarded_push_law cap) (guarded_pop_law cap)
                (guarded_empty_law cap) ops r
                (LStack.nonconcurrent_resize cap LStack.new) []
                (conj eq_refl Hok) He Hfits)
      as (s' & Hrun & _).
    unfold observe. by rewrite Hrun, Hpair.
Qed.
End ThreeStacksAsList.

Lemma one_thread_behaves_as_list_witness :
  observe [Push 5; TryPop; TryPop; Push 6; Push 7; TryPop] (-1)
    (Stack.resize 3 Stack.new)
  = Some (Done ([(true, 5); (false, 5); (true, 7)], 7)).
Proof.
  refine (proj1 (one_thread_behaves_as_list 3
    [Push 5; TryPop; TryPop; Push 6; Push 7; TryPop] (-1) _ _)).
  - lia.
  - by vm_compute.
Defined.

(** ** Before the storage is set up, and setting it up again *)

Section Storage.
Context {T : Type} `{ValueInit T}.


End Storage.



(** ** [push] and [main] as the C++ standard has them *)

Section Conforming.
Context {T : Type} `{ValueInit T}.
Import LFStack.

(** X17: no call of the lock-free [push] comes back.  The exchange of
    [acquire_write_rights] either fails, and the loop goes on, or
    succeeds, and control flows off the end of a function that is
    declared to return a value.  Alone, a [push] on a stack whose storage
    is set up gets there in three steps, from any control word; on a
    stack whose storage is not set up it trips the first assertion. *)
Theorem push_flows_off_acquire_write_rights :
  (∀ (s s' : lfstack T) (t : T) (index_copy : Z) (k' : point T),
     conforming_step s (AcquireCas t index_copy) = Done (s', k') →
     index s ≠ index_copy ∧ s' = s ∧ k' = AcquireLoad t)
  ∧ (∀ (s : lfstack T) (t : T) (index_copy : Z),
       index s = index_copy →
       conforming_step s (AcquireCas t index_copy) = Undefined)
  ∧ (∀ (s : lfstack T) (t : T) (fuel : nat),
       conforming_push (3 + fuel) t s
       = Some (if is_nullptr (_contents s) then AssertFailed
               else Undefined))
  ∧ (∀ (s s' : lfstack T) (t : T) (fuel : nat),
       conforming_push fuel t s ≠ Some (Done s')).
Proof.
  assert (∀ (s : lfstack T) (t : T) (fuel : nat),
            conforming_push (3 + fuel) t s
            = Some (if is_nullptr (_contents s) then AssertFailed
                    else Undefined)) as H3.
  { intros s t fuel. unfold conforming_push. simpl.
    destruct (_contents s); simpl; [done|].
    unfold load. by rewrite cas_success. }
  split_and!; [| |done|].
  - intros s s' t index_copy k'. simpl.
    destruct (decide (index s = index_copy)) as [E|E].
    + by rewrite cas_success.
    + rewrite cas_failure by done. by intros [= <- <-].
  - intros s t index_copy E. simpl. by rewrite cas_success.
  - intros s s' t fuel.
    destruct fuel as [|[|[|fuel]]].
    4: { change (S (S (S fuel))) with (3 + fuel)%nat.
         rewrite (H3 s t fuel). by destruct (is_nullptr _). }
    all: unfold conforming_push; simpl;
      try (destruct (assert _); simpl); done.
Qed.
End Conforming.

Lemma push_flows_off_acquire_write_rights_witness :
  LFStack.conforming_step
    (LFStack.nonconcurrent_resize 100 (LFStack.new 9))
    (LFStack.AcquireCas 1 0)
  = Undefined.
Proof.
  refine (proj1 (proj2 push_flows_off_acquire_write_rights)
            (LFStack.nonconcurrent_resize 100 (LFStack.new 9)) 1 0
            eq_refl).
Defined.

(** X15: [main] completes its first two blocks, on the plain and on the
    guarded stack: none of their assertions fails, and the lines
    [stack ok] and [lstack ok] are written, in this order.  In the third
    block the first [push] on the lock-free stack flows off the end of
    [acquire_write_rights]: whatever the atomic holds at construction,
    [main] does not get to write [lfstack ok] by any defined
    behaviour. *)
Theorem main_stops_in_lockfree_push (indeterminate : Z) :
  main indeterminate = (["stack ok"; "lstack ok"], Some Undefined).
Proof. reflexivity. Qed.

(** ** [try_pop] alone *)

Section AloneReturns.
Context {T : Type} `{ValueInit T}.
Import LFStack.

Lemma pop_loop_spins (s : lfstack T) (v : T) (fuel : nat) (d : T) :
  is_u32 (index s) → Z.odd (index s) = true →
  _contents s = first_element →
  0 < read_index (index s) →
  contents s !! Z.to_nat (read_index (index s) - 1) = Some v →
  run fuel s (PopLoad d) = None.
Proof.
  intros Hu Hodd Hp Hc Hv. revert d.
  destruct (clean_index_facts _ Hu) as (Hcu & Hev & Hcr & _).
  assert (2 ≤ clean_index (index s)) as H2.
  { rewrite <- Hcr in Hc. word_arith. }
  assert (index s ≠ clean_index (index s)) as Hne.
  { intros E. rewrite <- E in Hev. by apply (odd_not_even _ Hodd). }
  assert (read_index (clean_index (index s) - 2)
          = read_index (index s) - 1) as Hr.
  { rewrite <- Hcr. word_arith. }
  induction fuel as [fuel IH] using lt_wf_ind. intros d.
  destruct fuel as [|[|[|fuel]]]; [done|done|..]; simpl; unfold load;
    replace (is_zero (clean_index (index s))) with false
      by (symmetry; apply Z.ltb_ge; lia);
    rewrite decrement_index_ge2 by done; simpl;
    rewrite Hr, Hp, (fetch_in_range _ _ v Hv); simpl; [done|].
  rewrite decrement_index_ge2 by done. simpl.
  rewrite cas_failure by done. simpl. apply IH. lia.
Qed.

(** X16: without other threads [try_pop] is over within four steps
    (returned, or stopped by an assertion or an undefined access) when
    the write flag is clear; when the flag is set and the stack holds an
    element it goes round its loop for ever, the stack unchanged. *)
Theorem try_pop_alone_returns_or_spins :
  (∀ (s : lfstack T) (d : T),
     is_u32 (index s) → Z.land (index s) 1 = 0 →
     ∃ r, try_pop 4 d s = Some r)
  ∧ (∀ (s : lfstack T) (d v : T) (fuel : nat),
       is_u32 (index s) → Z.land (index s) 1 = 1 →
       _contents s = first_element →
       0 < read_index (index s) →
       contents s !! Z.to_nat (read_index (index s) - 1) = Some v →
       try_pop fuel d s = None).
Proof.
  split.
  - intros s d Hu Hbit. rewrite flag_bit_spec in Hbit.
    assert (clean_index (index s) = index s) as Hcl.
    { rewrite clean_index_spec by done. word_arith. }
    cut (is_Some (try_pop 4 d s)); [by intros [r ->]; exists r|].
    unfold try_pop. simpl.
    destruct (assert _); simpl; [|done..].
    unfold load. rewrite Hcl.
    destruct (is_zero (index s)); [done|].
    destruct (decrement_index (index s)) eqn:Hd; simpl; [|done..].
    destruct (fetch _ _ _); simpl; [|done..].
    rewrite Hd. simpl. rewrite cas_success by done. simpl. done.
  - intros s d v fuel Hu Hbit Hp Hc Hv. rewrite flag_bit_spec in Hbit.
    assert (Z.odd (index s) = true) as Hodd
      by (rewrite Zodd_mod; by apply Z.eqb_eq).
    destruct fuel as [|fuel]; [done|].
    unfold try_pop. simpl. rewrite Hp. simpl.
    by rewrite (pop_loop_spins s v fuel d).
Qed.
End AloneReturns.

Lemma try_pop_alone_returns_or_spins_witness :
  LFStack.try_pop 1000 (-1)
    {| LFStack.contents := [7; 0; 0];
       LFStack._contents := first_element;
       LFStack.index := 3; LFStack.size := 3 |}
  = None.
Proof.
  refine (proj2 try_pop_alone_returns_or_spins
            {| LFStack.contents := [7; 0; 0];
               LFStack._contents := first_element;
               LFStack.index := 3; LFStack.size := 3 |}
            (-1) 7 1000%nat _ _ eq_refl _ _); by vm_compute.
Defined.
